(** * crho: the scanner and the recursive-descent parser of [scanner.cpp]

    A shallow embedding of [src/scanner.cpp].  The program keeps its state in
    file-level statics ([LastChar], [IdentifierStr], [NumVal], [CurrToken],
    [ORDER_OF_OPS]) and reads [stdin] one character at a time; here the
    statics are the fields of two records that every function takes and
    returns.  Null [unique_ptr]s are [None]; what [RaiseError] prints is
    appended to a log of the standard error stream. *)

From Stdlib Require Import ZArith String Ascii List Bool Lia.
From Stdlib Require Import Floats.SpecFloat.
From stdpp Require Import gmap.
Import ListNotations.

Local Open Scope Z_scope.

(** ** Characters *)

(** [getchar] yields an [unsigned char] widened to [int], or [EOF]. *)
Definition EOF : Z := -1.

Definition code (c : ascii) : Z := Z.of_N (N_of_ascii c).

(** The [char] that an [int] known to hold a character code narrows to
    (the [IdentifierStr = LastChar] and [+= LastChar] assignments). *)
Definition chr (z : Z) : ascii := ascii_of_N (Z.to_N z).

Definition getchar (input : string) : Z * string :=
  match input with
  | EmptyString => (EOF, EmptyString)
  | String c rest => (code c, rest)
  end.

(** <cctype> in the "C" locale; each predicate is false at [EOF]. *)
Definition isspace (c : Z) : bool := (c =? 32) || ((9 <=? c) && (c <=? 13)).
Definition isdigit (c : Z) : bool := (48 <=? c) && (c <=? 57).
Definition isalpha (c : Z) : bool :=
  ((65 <=? c) && (c <=? 90)) || ((97 <=? c) && (c <=? 122)).
Definition isalnum (c : Z) : bool := isalpha c || isdigit c.

(** ** [strtod] on the strings the scanner hands it

    [numberString] holds only digits and dots, so of [strtod]'s grammar only
    the plain decimal form can match: digits, at most one dot, digits, with
    at least one digit overall.  The longest such prefix is converted, and a
    string with no such prefix converts to zero.  The value is rounded to the
    nearest binary64, ties to even. *)

Definition double := spec_float.

Definition digit_val (c : ascii) : option Z :=
  if isdigit (code c) then Some (code c - 48) else None.

(** The leading digits of [s]: their value appended to [acc], how many they
    are, and what follows them. *)
Fixpoint digit_run (s : string) (acc : Z) (n : nat) : Z * nat * string :=
  match s with
  | EmptyString => (acc, n, EmptyString)
  | String c rest =>
      match digit_val c with
      | Some d => digit_run rest (10 * acc + d) (S n)
      | None => (acc, n, s)
      end
  end.

(** [m / 10^k] rounded to binary64.  For [k > 0] the quotient is computed
    with 64 bits to spare and a sticky bit for the remainder, which is all
    that rounding to 53 bits looks at. *)
Definition double_of_decimal (m : Z) (k : nat) : double :=
  match k with
  | O => binary_normalize 53 1024 m 0 false
  | _ =>
      let d := 10 ^ Z.of_nat k in
      let s := Z.log2 d + 65 in
      let q := (m * 2 ^ s) / d in
      let sticky := if (m * 2 ^ s) mod d =? 0 then 0 else 1 in
      binary_normalize 53 1024 (2 * q + sticky) (- (s + 1)) false
  end.

Definition strtod (s : string) : double :=
  let '(ip, n1, rest) := digit_run s 0 O in
  match rest with
  | String "."%char frac =>
      let '(m, n, _) := digit_run frac ip O in
      match (n1 + n)%nat with
      | O => S754_zero false
      | _ => double_of_decimal m n
      end
  | _ =>
      match n1 with
      | O => S754_zero false
      | _ => double_of_decimal ip O
      end
  end.

(** ** The scanner *)

Definition tok_eof : Z := -1.
Definition tok_func : Z := -2.
Definition tok_import : Z := -3.
Definition tok_identifier : Z := -4.
Definition tok_number : Z := -5.

(** [stdin] is the input not yet read; the other fields are the statics of
    the scanner. *)
Record Scanner := mkScanner {
  stdin : string;
  LastChar : Z;
  IdentifierStr : string;
  NumVal : double
}.

(** [while (isspace(LastChar)) LastChar = getchar();] *)
Fixpoint skip_space (last : Z) (input : string) : Z * string :=
  if isspace last then
    match input with
    | EmptyString => getchar input
    | String c rest => skip_space (code c) rest
    end
  else (last, input).

(** [while (isalnum((LastChar = getchar()))) IdentifierStr += LastChar;]
    gives the characters appended, the last character read and the rest of
    the input. *)
Fixpoint read_identifier (input : string) : string * Z * string :=
  match input with
  | EmptyString => (EmptyString, EOF, EmptyString)
  | String c rest =>
      if isalnum (code c) then
        let '(s, last, rest') := read_identifier rest in
        (String c s, last, rest')
      else (EmptyString, code c, rest)
  end.

(** [do { numberString += LastChar; LastChar = getchar(); }
     while (isdigit(LastChar) || LastChar == '.');] *)
Fixpoint read_number (last : Z) (input : string) : string * Z * string :=
  match input with
  | EmptyString => (String (chr last) EmptyString, EOF, EmptyString)
  | String c rest =>
      if isdigit (code c) || (code c =? code ".") then
        let '(s, last', rest') := read_number (code c) rest in
        (String (chr last) s, last', rest')
      else (String (chr last) EmptyString, code c, rest)
  end.

(** [do LastChar = getchar();
     while (LastChar != '\n' && LastChar != '\r' && LastChar != EOF);] *)
Fixpoint skip_comment (input : string) : Z * string :=
  match input with
  | EmptyString => (EOF, EmptyString)
  | String c rest =>
      if (code c =? 10) || (code c =? 13) then (code c, rest)
      else skip_comment rest
  end.

(** The end of [gettok], from [// End of file] on. *)
Definition gettok_rest (sc : Scanner) : Z * Scanner :=
  if LastChar sc =? EOF then (tok_eof, sc)
  else
    let ThisChar := LastChar sc in
    let '(c, input) := getchar (stdin sc) in
    (ThisChar, mkScanner input c (IdentifierStr sc) (NumVal sc)).

(** [gettok].  It calls itself after a comment that a line end closes;
    [depth] bounds how many times, and [None] says the bound was hit. *)
Fixpoint gettok_rec (depth : nat) (sc : Scanner) : option (Z * Scanner) :=
  match depth with
  | O => None
  | S depth' =>
      let '(c, input) := skip_space (LastChar sc) (stdin sc) in
      if isalpha c then
        let '(s, last, input') := read_identifier input in
        let id := String (chr c) s in
        let sc' := mkScanner input' last id (NumVal sc) in
        if String.eqb id "func" then Some (tok_func, sc')
        else if String.eqb id "import" then Some (tok_import, sc')
        else Some (tok_identifier, sc')
      else if isdigit c || (c =? code ".") then
        let '(numberString, last, input') := read_number c input in
        Some (tok_number,
              mkScanner input' last (IdentifierStr sc) (strtod numberString))
      else if c =? code "#" then
        let '(last, input') := skip_comment input in
        let sc' := mkScanner input' last (IdentifierStr sc) (NumVal sc) in
        if negb (last =? EOF) then gettok_rec depth' sc'
        else Some (gettok_rest sc')
      else Some (gettok_rest (mkScanner input c (IdentifierStr sc) (NumVal sc)))
  end.

(** Every recursive call has read at least one character more, so one call
    per unread character, and one more, is bound enough
    ([gettok_rec_total] below); [gettok] is the scanner's function. *)
Definition gettok (sc : Scanner) : Z * Scanner :=
  match gettok_rec (S (String.length (stdin sc))) sc with
  | Some r => r
  | None => (tok_eof, sc)
  end.

(** The scanner before the first call: [static int LastChar = ' ']. *)
Definition scanner_init (input : string) : Scanner :=
  mkScanner input (code " ") EmptyString (S754_zero false).

(** ** The syntax tree

    [FuncProtoAST] is a record of its own: the program never uses a prototype
    where an expression is expected. [op_char] is a [char], kept as its
    numeric value. *)

Record FuncProtoAST := mkFuncProtoAST {
  argNames : list string;
  name : string
}.

#[local] Set Warnings "-register-all".
Inductive ExprAST :=
| NumberAST (value : double)
| BinOpAST (op_char : Z) (lhs rhs : ExprAST)
| VariableAST (symbol : string)
| FuncCallAST (callee : string) (args : list ExprAST)
| FunctionAST (prototype : FuncProtoAST) (expr : ExprAST).

(** ** The parser's state *)

(** [stderr] is what [RaiseError] has printed, one message per entry. *)
Record Parser := mkParser {
  scanner : Scanner;
  CurrToken : Z;
  ORDER_OF_OPS : gmap Z Z;
  stderr : list string
}.

(** A function of the parser takes the state and gives a result and the new
    state, or [None] when the recursion bound of the model was hit. *)
Definition M (A : Type) : Type := Parser -> option (A * Parser).

Definition ret {A} (a : A) : M A := fun p => Some (a, p).
Definition bind {A B} (m : M A) (k : A -> M B) : M B :=
  fun p => match m p with
           | Some (a, p') => k a p'
           | None => None
           end.
Definition out_of_fuel {A} : M A := fun _ => None.

Notation "'let*' x ':=' m 'in' k" := (bind m (fun x => k))
  (at level 10, x name, m at level 100, k at level 200, only parsing).

(** An [int] narrowed to [char], taken signed and eight bits wide: the key
    of an [ORDER_OF_OPS] lookup and the [op_char] of a [BinOpAST]. *)
Definition char_of_int (z : Z) : Z := (z + 128) mod 256 - 128.

(** [CurrToken = gettok()] *)
Definition GetNextToken : M Z := fun p =>
  let '(t, sc) := gettok (scanner p) in
  Some (t, mkParser sc t (ORDER_OF_OPS p) (stderr p)).

(** [ORDER_OF_OPS[tok]]: [std::map::operator[]] on a key that is not in the
    map inserts it with the value [int()], which is 0, and yields that. *)
Definition ORDER_OF_OPS_at (tok : Z) : M Z := fun p =>
  let k := char_of_int tok in
  match ORDER_OF_OPS p !! k with
  | Some v => Some (v, p)
  | None =>
      Some (0, mkParser (scanner p) (CurrToken p)
                        (<[k := 0]> (ORDER_OF_OPS p)) (stderr p))
  end.

(** [RaiseError]: prints the message and returns [nullptr]. *)
Definition RaiseError {A} (msg : string) : M (option A) := fun p =>
  Some (None, mkParser (scanner p) (CurrToken p) (ORDER_OF_OPS p)
                       (stderr p ++ [msg])).

Definition ParseNumber : M (option ExprAST) := fun p =>
  let result := NumberAST (NumVal (scanner p)) in
  (let* _ := GetNextToken in ret (Some result)) p.

(** The [do ... while (GetNextToken() == ',')] of [ParseFuncProto]. *)
Fixpoint ParseFuncProto_args (fuel : nat) (args : list string)
  : M (option (list string)) :=
  match fuel with
  | O => out_of_fuel
  | S fuel' => fun p =>
      if negb (CurrToken p =? tok_identifier) then
        RaiseError "Expected identifier in function definition." p
      else
        let args' := args ++ [IdentifierStr (scanner p)] in
        (let* t := GetNextToken in
         if t =? code "," then ParseFuncProto_args fuel' args'
         else ret (Some args')) p
  end.

(** The [return;] after a [RaiseError] is read as [return nullptr;]. *)
Definition ParseFuncProto (fuel : nat) : M (option FuncProtoAST) :=
  let* _ := GetNextToken in (* Eat 'func' keyword *)
  fun p =>
  if negb (CurrToken p =? tok_identifier) then
    RaiseError "Expected identifier in function definition." p
  else
    let name := IdentifierStr (scanner p) in
    (let* _ := GetNextToken in (* Eat the identifier *)
     fun p =>
     if negb (CurrToken p =? code "(") then
       RaiseError "Expected '(' in function definition." p
     else
       (let* _ := GetNextToken in
        let* args := ParseFuncProto_args fuel [] in
        match args with
        | None => ret None
        | Some args => fun p =>
            if negb (CurrToken p =? code ")") then
              RaiseError "Expected ')' in function definition" p
            else
              (let* _ := GetNextToken in (* Eat ')' *)
               ret (Some (mkFuncProtoAST args name))) p
        end) p) p.

(** The expression parser.  [ParseExpr], [ParseLhs], [ParseIdentifier],
    [ParseParenExpr] and [ParseBinOpRhs] call one another; every call takes
    one unit of [fuel], and the two loops are recursive calls of
    [ParseIdentifier_args] and [ParseBinOpRhs]. *)
Fixpoint ParseExpr (fuel : nat) : M (option ExprAST) :=
  match fuel with
  | O => out_of_fuel
  | S fuel' =>
      let* lhs := ParseLhs fuel' in
      match lhs with
      | None => ret None
      | Some lhs => ParseBinOpRhs fuel' 0 lhs
      end
  end

with ParseLhs (fuel : nat) : M (option ExprAST) :=
  match fuel with
  | O => out_of_fuel
  | S fuel' => fun p =>
      if CurrToken p =? tok_identifier then ParseIdentifier fuel' p
      else if CurrToken p =? tok_number then ParseNumber p
      else if CurrToken p =? code "(" then ParseParenExpr fuel' p
      else RaiseError "Invalid expression. Expected LHS." p
  end

with ParseParenExpr (fuel : nat) : M (option ExprAST) :=
  match fuel with
  | O => out_of_fuel
  | S fuel' =>
      let* _ := GetNextToken in (* Eat '(' *)
      let* expr := ParseExpr fuel' in
      fun p =>
      if negb (CurrToken p =? code ")") then RaiseError "Expected ')'." p
      else (let* _ := GetNextToken in ret expr) p
  end

with ParseIdentifier (fuel : nat) : M (option ExprAST) :=
  match fuel with
  | O => out_of_fuel
  | S fuel' => fun p =>
      let name := IdentifierStr (scanner p) in
      (let* _ := GetNextToken in (* Eat identifier name *)
       fun p =>
       (* Variable *)
       if negb (CurrToken p =? code "(") then ret (Some (VariableAST name)) p
       else
         (* Function call *)
         (let* args := ParseIdentifier_args fuel' [] in
          match args with
          | None => ret None
          | Some args => fun p =>
              if negb (CurrToken p =? code ")") then
                RaiseError "Expected ')' in function call" p
              else
                (let* _ := GetNextToken in (* Eat ')' *)
                 ret (Some (FuncCallAST name args))) p
          end) p) p
  end

(** The [do ... while (GetNextToken() == ',')] of [ParseIdentifier]. *)
with ParseIdentifier_args (fuel : nat) (args : list ExprAST)
  : M (option (list ExprAST)) :=
  match fuel with
  | O => out_of_fuel
  | S fuel' =>
      let* arg := ParseExpr fuel' in
      match arg with
      | None => ret None
      | Some arg =>
          let args' := args ++ [arg] in
          let* t := GetNextToken in
          if t =? code "," then ParseIdentifier_args fuel' args'
          else ret (Some args')
      end
  end

(** [while (true)] is the call of [ParseBinOpRhs] on the new [lhs]. *)
with ParseBinOpRhs (fuel : nat) (ExprPrec : Z) (lhs : ExprAST)
  : M (option ExprAST) :=
  match fuel with
  | O => out_of_fuel
  | S fuel' => fun p =>
      (let* TokPrec := ORDER_OF_OPS_at (CurrToken p) in
       if TokPrec <? ExprPrec then ret (Some lhs)
       else fun p =>
         (* Save and eat the binary operation token *)
         let CurrOp := CurrToken p in
         (let* _ := GetNextToken in
          let* rhs := ParseLhs fuel' in
          match rhs with
          | None => ret None
          | Some rhs => fun p =>
              (let* NextPrec := ORDER_OF_OPS_at (CurrToken p) in
               let* rhs :=
                 (if TokPrec <? NextPrec
                  then ParseBinOpRhs fuel' (TokPrec + 1) rhs
                  else ret (Some rhs)) in
               match rhs with
               | None => ret None
               | Some rhs =>
                   ParseBinOpRhs fuel' ExprPrec
                     (BinOpAST (char_of_int CurrOp) lhs rhs)
               end) p
          end) p) p
  end.

Definition ParseFuncDef (fuel : nat) : M (option ExprAST) :=
  let* _ := GetNextToken in (* Eat 'func' keyword. *)
  let* proto := ParseFuncProto fuel in
  match proto with
  | None => ret None
  | Some proto =>
      let* body := ParseExpr fuel in
      match body with
      | None => ret None
      | Some body => ret (Some (FunctionAST proto body))
      end
  end.

Definition ParseTopLevelExpr (fuel : nat) : M (option ExprAST) :=
  let* expr := ParseExpr fuel in
  match expr with
  | None => ret None
  | Some expr =>
      let proto := mkFuncProtoAST [] "__anon_func__" in
      ret (Some (FunctionAST proto expr))
  end.

Definition ParseImport : M (option ExprAST) :=
  RaiseError "Import not implemented.".

(** ** The main loop *)

(** [if (ParseFuncDef)] and [if (ParseImport)] name the function and do not
    call it: the condition is a function pointer that is not null, so the
    first branch, which is empty, is the one taken. *)
Definition function_pointer_is_set : bool := true.

Definition HandleFuncDef : M unit :=
  if function_pointer_is_set then ret tt
  else (* Try to recover *) let* _ := GetNextToken in ret tt.

Definition HandleImport : M unit :=
  if function_pointer_is_set then ret tt
  else let* _ := GetNextToken in ret tt.

Definition HandleTopLevelExpr (fuel : nat) : M unit :=
  let* r := ParseTopLevelExpr fuel in
  match r with
  | Some _ => ret tt
  | None => let* _ := GetNextToken in ret tt
  end.

(** One turn of [while (CurrToken != EOF)]: [None] when the loop is left. *)
Definition TopLevelParse_body (fuel : nat) : M (option unit) := fun p =>
  if CurrToken p =? EOF then ret None p
  else
    (let* _ :=
       (if CurrToken p =? tok_func then HandleFuncDef
        else if CurrToken p =? tok_import then HandleImport
        else if CurrToken p =? code ";" then ret tt (* Ignore semi-colon *)
        else HandleTopLevelExpr fuel) in
     ret (Some tt)) p.

Fixpoint TopLevelParse (fuel : nat) : M unit :=
  match fuel with
  | O => out_of_fuel
  | S fuel' =>
      let* again := TopLevelParse_body fuel' in
      match again with
      | None => ret tt
      | Some _ => TopLevelParse fuel'
      end
  end.

(** The state [main] starts from: [CurrToken] is a static [int], so 0, the
    table is never filled, and nothing is printed yet.  [parser_init] takes
    the table as an argument for the claims that speak of a filled one. *)
Definition parser_init (table : gmap Z Z) (input : string) : Parser :=
  mkParser (scanner_init input) 0 table [].

Definition main (fuel : nat) (input : string) : option (unit * Parser) :=
  TopLevelParse fuel (parser_init ∅ input).

(** A parser whose current token is the first one of [input]. *)
Definition parser_on (table : gmap Z Z) (input : string) : Parser :=
  match GetNextToken (parser_init table input) with
  | Some (_, p) => p
  | None => parser_init table input
  end.


(** ** What the claims speak of *)

(** No character of [s] ends a line. *)
Fixpoint line_end_free (s : string) : bool :=
  match s with
  | EmptyString => true
  | String c rest =>
      negb ((code c =? 10) || (code c =? 13)) && line_end_free rest
  end.

Definition is_line_end (c : ascii) : bool := (code c =? 10) || (code c =? 13).

(** The binary64 number that is exactly the integer [z], for [z] small
    enough to need no rounding. *)
Definition double_of_Z (z : Z) : double := binary_normalize 53 1024 z 0 false.

(** How many [BinOpAST] nodes lie on the way down the left operands. *)
Fixpoint left_depth (e : ExprAST) : nat :=
  match e with
  | BinOpAST _ l _ => S (left_depth l)
  | _ => O
  end.

(** [m2] gives every result that [m1] gives. *)
Definition below {A} (m1 m2 : M A) : Prop :=
  forall p r, m1 p = Some r -> m2 p = Some r.

(** The table holds no negative precedence. *)
Definition table_nonneg (p : Parser) : Prop :=
  forall k v, ORDER_OF_OPS p !! k = Some v -> 0 <= v.

(** [m] keeps the table free of negative precedences, and its result
    satisfies [post]. *)
Definition keeps {A} (m : M A) (post : A -> Prop) : Prop :=
  forall p a p', table_nonneg p -> m p = Some (a, p') ->
                 table_nonneg p' /\ post a.

(** The inputs and tables of the examples. *)
Definition note_then_42 : string := "# note" ++ String "010" "42".

Definition sum_product_table : gmap Z Z :=
  {[ code "+" := 10; code "*" := 20 ]}.
Definition minus_table : gmap Z Z := {[ code "-" := 10 ]}.
Definition add_table : gmap Z Z := {[ code "+" := 10 ]}.

(** [table] with the precedence -1 for the end of input, and for [')']. *)
Definition with_low_eof (table : gmap Z Z) : gmap Z Z :=
  <[ char_of_int tok_eof := -1 ]> table.

(** The parser once [ParseLhs] has read the whole input [a], the table
    being empty as [main] leaves it. *)
Definition after_a : Parser :=
  mkParser (mkScanner "" EOF "a" (S754_zero false)) tok_eof ∅ [].

(** ** What the further properties speak of *)

(** Every character of [s] satisfies [f]. *)
Fixpoint all_chars (f : Z -> bool) (s : string) : bool :=
  match s with
  | EmptyString => true
  | String c rest => f (code c) && all_chars f rest
  end.

(** [s] starts with a character that satisfies [f]. *)
Definition head_is (f : Z -> bool) (s : string) : bool :=
  match s with
  | EmptyString => false
  | String c _ => f (code c)
  end.

Definition isnumeric (c : Z) : bool := isdigit c || (c =? code ".").

(** The token of a word: the two keywords, or an identifier. *)
Definition word_token (id : string) : Z :=
  if String.eqb id "func" then tok_func
  else if String.eqb id "import" then tok_import
  else tok_identifier.

(** Once the input is used up, nothing is left to read. *)
Definition scanner_ok (sc : Scanner) : Prop :=
  LastChar sc = EOF -> stdin sc = EmptyString.

(** A result that is not [nullptr]. *)
Definition succeeded {A} (r : option A) : bool :=
  match r with
  | Some _ => true
  | None => false
  end.

Definition always {A} (a : A) : bool := true.

(** [m] only adds to what is printed. *)
Definition appends {A} (m : M A) : Prop :=
  forall p a p', m p = Some (a, p') ->
  exists msgs, stderr p' = stderr p ++ msgs.

(** [m] only adds to what is printed, and its result is good exactly when
    it has printed nothing. *)
Definition reports {A} (ok : A -> bool) (m : M A) : Prop :=
  forall p a p', m p = Some (a, p') ->
  exists msgs, stderr p' = stderr p ++ msgs /\ (ok a = true <-> msgs = []).

(** [m] only adds to what is printed, and its result is never good. *)
Definition gives_up {A} (ok : A -> bool) (m : M A) : Prop :=
  forall p a p', m p = Some (a, p') ->
  ok a = false /\ exists msgs, stderr p' = stderr p ++ msgs.

(** Every run of [m] takes the state to one that [R] relates to it. *)
Definition steps (R : Parser -> Parser -> Prop) {A} (m : M A) : Prop :=
  forall p a p', m p = Some (a, p') -> R p p'.

(** [t'] is [t] with some keys more, each with the value 0. *)
Definition zero_extends (t t' : gmap Z Z) : Prop :=
  (forall k v, t !! k = Some v -> t' !! k = Some v) /\
  (forall k v, t' !! k = Some v -> t !! k = Some v \/ v = 0).

(** The current token is the end of input only once the input is used
    up. *)
Definition parser_ok (p : Parser) : Prop :=
  scanner_ok (scanner p) /\
  (CurrToken p = tok_eof ->
   LastChar (scanner p) = EOF /\ stdin (scanner p) = EmptyString).

(** The three relations the parser's steps are shown to keep: the table
    grows by zeros, the output grows, the end of input stays the end. *)
Definition table_grows (p p' : Parser) : Prop :=
  zero_extends (ORDER_OF_OPS p) (ORDER_OF_OPS p').


Definition stays_ok (p p' : Parser) : Prop := parser_ok p -> parser_ok p'.

(** ** What the termination properties speak of *)

(** How much the scanner has left: the unread input and the pending
    character. *)
Definition pending (last : Z) : nat := if last =? EOF then 0%nat else 1%nat.

Definition unread (sc : Scanner) : nat :=
  (String.length (stdin sc) + pending (LastChar sc))%nat.

(** How much the parser has left: what the scanner has, and the current
    token unless it is the end of input. *)
Definition to_parse (p : Parser) : nat :=
  (unread (scanner p) + pending (CurrToken p))%nat.

(** The parser stays well-formed and has no more left than before. *)
Definition shrinks (p p' : Parser) : Prop :=
  parser_ok p -> parser_ok p' /\ (to_parse p' <= to_parse p)%nat.

(** [m] returns from [p]. *)
Definition returns {A} (m : M A) (p : Parser) : Prop := exists r, m p = Some r.



(** * The scanner *)

Section Scanner_facts.

Lemma code_nonneg c : 0 <= code c.
Proof. unfold code. lia. Qed.

Lemma skip_space_length input : forall last,
  (String.length (snd (skip_space last input)) <= String.length input)%nat.
Proof.
  induction input as [|c rest IH]; intros last; simpl.
  - destruct (isspace last); simpl; lia.
  - destruct (isspace last); simpl; [|lia].
    specialize (IH (code c)). lia.
Qed.

(** A comment that a line end closes has taken at least that character. *)
Lemma skip_comment_length input :
  fst (skip_comment input) <> EOF ->
  (String.length (snd (skip_comment input)) < String.length input)%nat.
Proof.
  induction input as [|c rest IH]; simpl; intros H.
  - congruence.
  - destruct ((code c =? 10) || (code c =? 13)); simpl in *; [lia|].
    specialize (IH H). lia.
Qed.

Lemma skip_comment_line_end text : forall c rest,
  line_end_free text = true -> is_line_end c = true ->
  skip_comment (text ++ String c rest) = (code c, rest).
Proof.
  unfold is_line_end.
  induction text as [|a text IH]; intros c rest Hfree Hend; simpl in *.
  - now rewrite Hend.
  - apply andb_prop in Hfree as [Ha Hfree].
    apply negb_true_iff in Ha. rewrite Ha. now apply IH.
Qed.

Lemma skip_comment_to_end text :
  line_end_free text = true -> skip_comment text = (EOF, EmptyString).
Proof.
  induction text as [|a text IH]; intros Hfree; simpl in *; [reflexivity|].
  apply andb_prop in Hfree as [Ha Hfree].
  apply negb_true_iff in Ha. rewrite Ha. now apply IH.
Qed.

(** [gettok] returns: a recursion bound of one call per unread character,
    and one more, is never hit. *)
Lemma gettok_rec_total n : forall sc,
  (String.length (stdin sc) <= n)%nat ->
  exists r, gettok_rec (S n) sc = Some r.
Proof.
  induction n as [|n IH]; intros sc Hlen.
  all: cbn [gettok_rec].
  all: pose proof (skip_space_length (stdin sc) (LastChar sc)) as Hsp.
  all: destruct (skip_space (LastChar sc) (stdin sc)) as [c input]; simpl in Hsp.
  all: destruct (isalpha c);
    [ destruct (read_identifier input) as [[s last] input'];
      repeat destruct (_ =? _)%string; eauto | ].
  all: destruct (isdigit c || (c =? code "."));
    [ destruct (read_number c input) as [[s last] input']; eauto | ].
  all: destruct (c =? code "#"); [ | eauto ].
  all: pose proof (skip_comment_length input) as Hc.
  all: destruct (skip_comment input) as [last input']; simpl in Hc.
  all: destruct (last =? EOF) eqn:E; cbn [negb]; eauto.
  all: apply Z.eqb_neq in E; specialize (Hc E).
  - lia.
  - apply IH. cbn [stdin]. lia.
Qed.

Lemma gettok_rec_S depth : forall sc r,
  gettok_rec depth sc = Some r -> gettok_rec (S depth) sc = Some r.
Proof.
  induction depth as [|d IH]; intros sc r H; [discriminate|].
  cbn [gettok_rec] in *.
  destruct (skip_space (LastChar sc) (stdin sc)) as [c input].
  destruct (isalpha c); [exact H|].
  destruct (isdigit c || (c =? code ".")); [exact H|].
  destruct (c =? code "#"); [|exact H].
  destruct (skip_comment input) as [last input'].
  destruct (negb (last =? EOF)); [|exact H].
  apply IH, H.
Qed.

Lemma gettok_rec_le d d' sc r :
  (d <= d')%nat -> gettok_rec d sc = Some r -> gettok_rec d' sc = Some r.
Proof. induction 1; auto using gettok_rec_S. Qed.

(** Whatever bound the recursion ends under, its result is [gettok]'s. *)
Lemma gettok_rec_gettok d sc r :
  gettok_rec d sc = Some r -> gettok sc = r.
Proof.
  intros H. unfold gettok.
  destruct (gettok_rec_total (String.length (stdin sc)) sc) as [r' Hr']; [lia|].
  rewrite Hr'.
  destruct (Nat.le_ge_cases d (S (String.length (stdin sc)))) as [L|L].
  - rewrite (gettok_rec_le _ _ _ _ L H) in Hr'. congruence.
  - rewrite (gettok_rec_le _ _ _ _ L Hr') in H. congruence.
Qed.

End Scanner_facts.

(** C7. Comments are transparent to the token stream.  The two lines
    [# note] and [42] give one token, the number 42, and the next call
    reports the end of input and leaves the scanner as it is.  In general a
    call that finds ['#'] reads up to the line end, keeps the line end as
    the pending character, and returns what the scanner returns from there:
    the comment gives no token. *)
Theorem comment_is_transparent :
  (let '(t1, sc1) := gettok (scanner_init note_then_42) in
   let '(t2, sc2) := gettok sc1 in
   t1 = tok_number /\ NumVal sc1 = double_of_Z 42 /\
   NumVal sc1 = S754_finite false (42 * 2 ^ 47) (-47) /\
   t2 = tok_eof /\ sc2 = sc1) /\
  (forall sc text c rest,
     skip_space (LastChar sc) (stdin sc)
       = (code "#", (text ++ String c rest)%string) ->
     line_end_free text = true ->
     is_line_end c = true ->
     gettok sc
       = gettok (mkScanner rest (code c) (IdentifierStr sc) (NumVal sc))).
Proof.
  split; [vm_compute; repeat split; reflexivity|].
  intros sc text c rest Hsp Hfree Hend.
  set (sc' := mkScanner rest (code c) (IdentifierStr sc) (NumVal sc)).
  destruct (gettok_rec_total (String.length (stdin sc')) sc') as [r Hr]; [lia|].
  rewrite (gettok_rec_gettok _ _ _ Hr).
  apply (gettok_rec_gettok (S (S (String.length (stdin sc'))))).
  cbn [gettok_rec]. rewrite Hsp. cbn [gettok_rec] in Hr.
  replace (isalpha (code "#")) with false by reflexivity.
  replace (isdigit (code "#") || (code "#" =? code ".")) with false
    by reflexivity.
  replace (code "#" =? code "#") with true by reflexivity.
  rewrite (skip_comment_line_end _ _ _ Hfree Hend).
  replace (negb (code c =? EOF)) with true.
  - exact Hr.
  - symmetry. apply negb_true_iff, Z.eqb_neq.
    pose proof (code_nonneg c). unfold EOF. lia.
Qed.

Lemma comment_is_transparent_witness :
  gettok (mkScanner (" note" ++ String "010" "42")%string (code "#") ""
                    (S754_zero false)) =
  gettok (mkScanner "42" 10 "" (S754_zero false)).
Proof.
  apply (proj2 comment_is_transparent
           (mkScanner (" note" ++ String "010" "42")%string (code "#") ""
                      (S754_zero false))
           " note"%string "010"%char "42"%string); reflexivity.
Defined.

(** C10. A comment that runs to the end of the input: the call that finds
    the ['#'] returns [tok_eof] itself.  One call is bound enough for
    [gettok_rec], so [gettok] is not called again; the buffers are as they
    were and nothing is printed (the scanner has no way to print). *)
Theorem trailing_comment_is_eof sc text :
  skip_space (LastChar sc) (stdin sc) = (code "#", text) ->
  line_end_free text = true ->
  let sc' := mkScanner "" EOF (IdentifierStr sc) (NumVal sc) in
  gettok_rec 1 sc = Some (tok_eof, sc') /\ gettok sc = (tok_eof, sc').
Proof.
  intros Hsp Hfree sc'.
  assert (H : gettok_rec 1 sc = Some (tok_eof, sc')).
  { cbn [gettok_rec]. rewrite Hsp.
    replace (isalpha (code "#")) with false by reflexivity.
    replace (isdigit (code "#") || (code "#" =? code ".")) with false
      by reflexivity.
    replace (code "#" =? code "#") with true by reflexivity.
    rewrite (skip_comment_to_end _ Hfree). reflexivity. }
  split; [exact H|]. exact (gettok_rec_gettok _ _ _ H).
Qed.

Lemma trailing_comment_is_eof_witness :
  gettok_rec 1 (snd (gettok (scanner_init "42 # the answer"))) =
    Some (tok_eof, mkScanner "" EOF "" (double_of_Z 42)) /\
  gettok (snd (gettok (scanner_init "42 # the answer"))) =
    (tok_eof, mkScanner "" EOF "" (double_of_Z 42)).
Proof.
  apply (trailing_comment_is_eof
           (snd (gettok (scanner_init "42 # the answer")))
           " the answer"%string);
    reflexivity.
Defined.

(** X1. [gettok] returns on every input: it calls itself only after a
    comment, having read at least one character more, so the bound of one
    call per unread character and one more, under which [gettok] runs
    [gettok_rec], is never hit. *)
Theorem gettok_returns sc :
  exists r, gettok_rec (S (String.length (stdin sc))) sc = Some r /\
            gettok sc = r.
Proof.
  destruct (gettok_rec_total (String.length (stdin sc)) sc) as [r Hr]; [lia|].
  exists r. split; [exact Hr|]. exact (gettok_rec_gettok _ _ _ Hr).
Qed.

(** * The parser *)

(** ** More fuel changes no result *)

Section Below.

Lemma below_refl {A} (m : M A) : below m m.
Proof. intros p r H; exact H. Qed.

Lemma below_out_of_fuel {A} (m : M A) : below out_of_fuel m.
Proof. intros p r H; discriminate. Qed.

Lemma below_bind {A B} (m1 m2 : M A) (k1 k2 : A -> M B) :
  below m1 m2 -> (forall a, below (k1 a) (k2 a)) ->
  below (bind m1 k1) (bind m2 k2).
Proof.
  intros Hm Hk p r. unfold bind.
  destruct (m1 p) as [[a p']|] eqn:E; [|discriminate].
  rewrite (Hm _ _ E). apply Hk.
Qed.

Lemma below_state {A} (m1 m2 : Parser -> M A) :
  (forall p, below (m1 p) (m2 p)) ->
  below (fun p => m1 p p) (fun p => m2 p p).
Proof. intros H p r. apply H. Qed.

End Below.

(** One step of a proof of [below m1 m2] for two bodies that differ in the
    fuel of their calls only; a body that reads the state is compared at
    each state. *)
Ltac below_step :=
  match goal with
  | |- below ?m ?m => apply below_refl
  | H : below ?a ?b |- below ?a ?b => exact H
  | H : forall x, below _ _ |- below _ _ => apply H
  | H : forall x y, below _ _ |- below _ _ => apply H
  | |- below (bind _ _) (bind _ _) => apply below_bind
  | |- below (match ?x with _ => _ end) _ => destruct x
  | |- below (fun p => _) _ =>
      let p := fresh "p" in
      let r := fresh "r" in
      intros p r; cbv beta
  | |- ?m ?p = Some ?r -> ?m ?p = Some ?r => exact (fun h => h)
  | |- (if ?c then _ else _) = Some _ -> _ => destruct c
  | |- (match ?x with _ => _ end) _ = Some _ -> _ => destruct x
  | |- ?f ?p = Some ?r -> ?g ?p = Some ?r =>
      let Hb := fresh "Hb" in
      cut (below f g); [intros Hb; exact (Hb p r)|]
  | |- forall _, _ => intro
  end.

Lemma fuel_le fuel : forall fuel', (fuel <= fuel')%nat ->
  below (ParseExpr fuel) (ParseExpr fuel') /\
  below (ParseLhs fuel) (ParseLhs fuel') /\
  below (ParseParenExpr fuel) (ParseParenExpr fuel') /\
  below (ParseIdentifier fuel) (ParseIdentifier fuel') /\
  (forall args, below (ParseIdentifier_args fuel args)
                      (ParseIdentifier_args fuel' args)) /\
  (forall e l, below (ParseBinOpRhs fuel e l) (ParseBinOpRhs fuel' e l)).
Proof.
  induction fuel as [|f IH]; intros fuel' Hle.
  - repeat split; intros; apply below_out_of_fuel.
  - destruct fuel' as [|f']; [lia|].
    destruct (IH f' ltac:(lia)) as (IH1 & IH2 & IH3 & IH4 & IH5 & IH6).
    repeat split; intros; simpl; repeat below_step.
Qed.

Lemma ParseExpr_fuel_le fuel fuel' :
  (fuel <= fuel')%nat -> below (ParseExpr fuel) (ParseExpr fuel').
Proof. intros H. apply (fuel_le fuel fuel' H). Qed.

Lemma ParseFuncProto_args_fuel_le fuel : forall fuel' args,
  (fuel <= fuel')%nat ->
  below (ParseFuncProto_args fuel args) (ParseFuncProto_args fuel' args).
Proof.
  induction fuel as [|f IH]; intros fuel' args Hle.
  - apply below_out_of_fuel.
  - destruct fuel' as [|f']; [lia|].
    assert (IH' := fun a => IH f' a ltac:(lia)).
    simpl; repeat below_step.
Qed.

Lemma ParseFuncProto_fuel_le fuel fuel' :
  (fuel <= fuel')%nat -> below (ParseFuncProto fuel) (ParseFuncProto fuel').
Proof.
  intros Hle.
  assert (IH := fun a => ParseFuncProto_args_fuel_le fuel fuel' a Hle).
  unfold ParseFuncProto. repeat below_step.
Qed.

Lemma ParseFuncDef_fuel_le fuel fuel' :
  (fuel <= fuel')%nat -> below (ParseFuncDef fuel) (ParseFuncDef fuel').
Proof.
  intros Hle. pose proof (ParseFuncProto_fuel_le _ _ Hle).
  pose proof (ParseExpr_fuel_le _ _ Hle).
  unfold ParseFuncDef. repeat below_step.
Qed.

Lemma ParseTopLevelExpr_fuel_le fuel fuel' :
  (fuel <= fuel')%nat ->
  below (ParseTopLevelExpr fuel) (ParseTopLevelExpr fuel').
Proof.
  intros Hle. pose proof (ParseExpr_fuel_le _ _ Hle).
  unfold ParseTopLevelExpr. repeat below_step.
Qed.

(** ** The state after a step *)

Lemma GetNextToken_CurrToken p t p' :
  GetNextToken p = Some (t, p') ->
  CurrToken p' = t /\ ORDER_OF_OPS p' = ORDER_OF_OPS p /\ stderr p' = stderr p.
Proof.
  unfold GetNextToken. destruct (gettok (scanner p)) as [t0 sc].
  intros H. injection H as <- <-. auto.
Qed.

Lemma ORDER_OF_OPS_at_absent tok p :
  ORDER_OF_OPS p !! char_of_int tok = None ->
  ORDER_OF_OPS_at tok p =
  Some (0, mkParser (scanner p) (CurrToken p)
                    (<[char_of_int tok := 0]> (ORDER_OF_OPS p)) (stderr p)).
Proof. intros H. unfold ORDER_OF_OPS_at. rewrite H. reflexivity. Qed.

Lemma ORDER_OF_OPS_at_present tok p v :
  ORDER_OF_OPS p !! char_of_int tok = Some v ->
  ORDER_OF_OPS_at tok p = Some (v, p).
Proof. intros H. unfold ORDER_OF_OPS_at. rewrite H. reflexivity. Qed.

(** [ParseBinOpRhs] only ever builds on top of the left operand it is
    given. *)
Lemma ParseBinOpRhs_left_depth fuel : forall e l p t p',
  ParseBinOpRhs fuel e l p = Some (Some t, p') ->
  (left_depth l <= left_depth t)%nat.
Proof.
  induction fuel as [|f IH]; intros e l p t p' H; [discriminate|].
  cbn [ParseBinOpRhs] in H. unfold bind in H.
  destruct (ORDER_OF_OPS_at (CurrToken p) p) as [[TokPrec p1]|];
    [|discriminate].
  destruct (TokPrec <? e).
  { injection H as -> _. lia. }
  destruct (GetNextToken p1) as [[tk p2]|]; [|discriminate].
  destruct (ParseLhs f p2) as [[[rhs|] p3]|]; try discriminate.
  destruct (ORDER_OF_OPS_at (CurrToken p3) p3) as [[NextPrec p4]|];
    [|discriminate].
  destruct (if TokPrec <? NextPrec then _ else _) as [[[rhs'|] p5]|];
    try discriminate.
  apply IH in H. cbn [left_depth] in H. lia.
Qed.

(** The loop of [ParseFuncProto] ends with one more name than it had, or
    with [None]. *)
Lemma ParseFuncProto_args_one fuel args p r p' :
  ParseFuncProto_args fuel args p = Some (Some r, p') ->
  r = args ++ [IdentifierStr (scanner p)].
Proof.
  destruct fuel as [|f]; [discriminate|].
  cbn [ParseFuncProto_args]. destruct (negb _); [discriminate|].
  unfold bind. destruct (GetNextToken p) as [[t p1]|] eqn:E; [|discriminate].
  destruct (GetNextToken_CurrToken _ _ _ E) as (C & _ & _).
  destruct (t =? code ",") eqn:Et.
  - apply Z.eqb_eq in Et. rewrite Et in C.
    destruct f as [|f]; [discriminate|].
    cbn [ParseFuncProto_args]. rewrite C. discriminate.
  - intros [= <- _]. reflexivity.
Qed.

(** ** The table keeps out negative precedences *)

Section Keeps.

Lemma keeps_ret {A} (a : A) (post : A -> Prop) : post a -> keeps (ret a) post.
Proof. intros H p a' p' Hp E. injection E as <- <-. auto. Qed.

Lemma keeps_out_of_fuel {A} (post : A -> Prop) : keeps out_of_fuel post.
Proof. intros p a p' _ E. discriminate. Qed.

Lemma keeps_bind {A B} (m : M A) (k : A -> M B) mid post :
  keeps m mid -> (forall a, mid a -> keeps (k a) post) ->
  keeps (bind m k) post.
Proof.
  intros Hm Hk p b p' Hp E. unfold bind in E.
  destruct (m p) as [[a p1]|] eqn:Em; [|discriminate].
  destruct (Hm _ _ _ Hp Em) as [Hp1 Ha]. exact (Hk a Ha _ _ _ Hp1 E).
Qed.

Lemma keeps_state {A} (m : Parser -> M A) post :
  (forall p, keeps (m p) post) -> keeps (fun p => m p p) post.
Proof. intros H p. apply H. Qed.

Lemma keeps_weaken {A} (m : M A) (mid post : A -> Prop) :
  keeps m mid -> (forall a, mid a -> post a) -> keeps m post.
Proof. intros H W p a p' Hp E. destruct (H _ _ _ Hp E). auto. Qed.

Lemma keeps_GetNextToken : keeps GetNextToken (fun _ => True).
Proof.
  intros p t p' Hp E. unfold GetNextToken in E.
  destruct (gettok (scanner p)) as [t0 sc]. injection E as <- <-. auto.
Qed.

Lemma keeps_ORDER_OF_OPS_at tok :
  keeps (ORDER_OF_OPS_at tok) (fun v => 0 <= v).
Proof.
  intros p v p' Hp E. unfold ORDER_OF_OPS_at in E.
  destruct (ORDER_OF_OPS p !! char_of_int tok) as [v0|] eqn:L;
    injection E as <- <-.
  - split; [exact Hp|]. exact (Hp _ _ L).
  - split; [|lia]. intros k v. cbn [ORDER_OF_OPS].
    rewrite lookup_insert. case_decide.
    + intros [= <-]. lia.
    + apply Hp.
Qed.

Lemma keeps_RaiseError {A} msg : keeps (@RaiseError A msg) (fun r => r = None).
Proof. intros p r p' Hp E. injection E as <- <-. auto. Qed.

End Keeps.

(** A body that reads the state, [fun p => ...]: the conditions on the state
    are decided, and what is left is the branch taken. *)
Ltac keeps_read :=
  lazymatch goal with
  | |- keeps (fun p => _) ?post =>
      let p := fresh "p" in
      let a := fresh "a" in
      let p' := fresh "p'" in
      let Hp := fresh "Hp" in
      let E := fresh "E" in
      intros p a p' Hp E; cbv beta zeta in E;
      repeat match type of E with
             | (if ?c then _ else _) = _ => destruct c eqn:?
             end;
      lazymatch type of E with
      | ?X p = Some _ =>
          let Hk := fresh "Hk" in
          cut (keeps X post); [intros Hk; exact (Hk p a p' Hp E) | clear E Hp]
      end
  end.

Lemma keeps_ParseNumber : keeps ParseNumber (fun _ => True).
Proof.
  unfold ParseNumber. keeps_read.
  eapply keeps_bind; [apply keeps_GetNextToken|]. intros. now apply keeps_ret.
Qed.

(** With no negative precedence in the table, [ParseBinOpRhs] called with
    a minimum of 0 or less has no way out but a failure, and so has
    [ParseExpr]. *)
Lemma Parse_keeps fuel :
  keeps (ParseExpr fuel) (fun r => r = None) /\
  keeps (ParseLhs fuel) (fun _ => True) /\
  keeps (ParseParenExpr fuel) (fun r => r = None) /\
  keeps (ParseIdentifier fuel) (fun _ => True) /\
  (forall args, keeps (ParseIdentifier_args fuel args) (fun r => r = None)) /\
  (forall e l, keeps (ParseBinOpRhs fuel e l) (fun r => e <= 0 -> r = None)).
Proof.
  induction fuel as [|f (IH1 & IH2 & IH3 & IH4 & IH5 & IH6)].
  - repeat apply conj; intros; apply keeps_out_of_fuel.
  - repeat apply conj; intros.
    + cbn [ParseExpr]. eapply keeps_bind; [exact IH2|].
      intros [lhs|] _; [|now apply keeps_ret].
      eapply keeps_weaken; [apply IH6|]. intros a H; apply H; lia.
    + cbn [ParseLhs]. keeps_read; try assumption.
      * apply keeps_ParseNumber.
      * eapply keeps_weaken; [exact IH3 | auto].
      * eapply keeps_weaken; [apply keeps_RaiseError | auto].
    + cbn [ParseParenExpr].
      eapply keeps_bind; [apply keeps_GetNextToken|]. intros _ _.
      eapply keeps_bind; [exact IH1|]. intros expr ->.
      keeps_read; [apply keeps_RaiseError|].
      eapply keeps_bind; [apply keeps_GetNextToken|].
      intros. now apply keeps_ret.
    + cbn [ParseIdentifier]. keeps_read.
      eapply keeps_bind; [apply keeps_GetNextToken|]. intros _ _.
      keeps_read; [now apply keeps_ret|].
      eapply keeps_bind; [apply IH5|]. intros args ->. now apply keeps_ret.
    + cbn [ParseIdentifier_args].
      eapply keeps_bind; [exact IH1|]. intros arg ->. now apply keeps_ret.
    + cbn [ParseBinOpRhs]. keeps_read.
      eapply keeps_bind; [apply keeps_ORDER_OF_OPS_at|]. intros TokPrec HT.
      destruct (TokPrec <? e) eqn:Elt.
      { apply keeps_ret. apply Z.ltb_lt in Elt. cbv beta in *. intros. lia. }
      keeps_read.
      eapply keeps_bind; [apply keeps_GetNextToken|]. intros _ _.
      eapply keeps_bind; [exact IH2|].
      intros [rhs|] _; [|now apply keeps_ret].
      keeps_read.
      eapply keeps_bind; [apply keeps_ORDER_OF_OPS_at|]. intros NextPrec HN.
      eapply keeps_bind with (mid := fun _ => True).
      { destruct (TokPrec <? NextPrec); [|now apply keeps_ret].
        eapply keeps_weaken; [apply IH6 | auto]. }
      intros [rhs'|] _; [apply IH6 | now apply keeps_ret].
Qed.

(** * The claims about the parser and the main loop *)

(** C1. With [+] at precedence 10 and [*] at 20, parsing [a + b * c] does
    not yield the tree [a + (b * c)]: the end of input is not in the table,
    [ORDER_OF_OPS[CurrToken]] gives 0 for it and not -1, which is not below
    the minimum 0, so [ParseBinOpRhs] eats the end of input as an operator,
    finds no operand and returns [nullptr].  The result does not depend on
    the recursion bound. *)
Theorem sum_product_is_null k :
  ParseExpr (6 + k) (parser_on sum_product_table "a + b * c") =
  Some (None,
        mkParser (mkScanner "" EOF "c" (S754_zero false)) tok_eof
                 (<[ char_of_int tok_eof := 0 ]> sum_product_table)
                 ["Invalid expression. Expected LHS."%string]).
Proof.
  apply (ParseExpr_fuel_le 6); [lia|]. vm_compute. reflexivity.
Qed.

(** C2. A token that is not in the table is looked up as 0 (and entered in
    the table with 0), which is not below the minimum precedence 0: called
    with the minimum 0 on such a token, [ParseBinOpRhs] goes on past the
    check, so whatever it returns is not the left-hand side it was given. *)
Theorem absent_token_is_consumed fuel p lhs :
  ORDER_OF_OPS p !! char_of_int (CurrToken p) = None ->
  ORDER_OF_OPS_at (CurrToken p) p =
    Some (0, mkParser (scanner p) (CurrToken p)
                      (<[char_of_int (CurrToken p) := 0]> (ORDER_OF_OPS p))
                      (stderr p)) /\
  forall r p', ParseBinOpRhs fuel 0 lhs p = Some (r, p') -> r <> Some lhs.
Proof.
  intros Habs. split; [now apply ORDER_OF_OPS_at_absent|].
  intros r p' H ->. destruct fuel as [|f]; [discriminate|].
  cbn [ParseBinOpRhs] in H. unfold bind in H.
  rewrite (ORDER_OF_OPS_at_absent _ _ Habs) in H.
  cbn [Z.ltb Z.compare] in H.
  destruct (GetNextToken _) as [[tk p2]|]; [|discriminate].
  destruct (ParseLhs f p2) as [[[rhs|] p3]|]; try discriminate.
  destruct (ORDER_OF_OPS_at (CurrToken p3) p3) as [[NextPrec p4]|];
    [|discriminate].
  destruct (if 0 <? NextPrec then _ else _) as [[[rhs'|] p5]|];
    try discriminate.
  apply ParseBinOpRhs_left_depth in H. cbn [left_depth] in H. lia.
Qed.

(** [after_a] is where [ParseLhs] leaves the parser on the input [a]. *)
Lemma after_a_reached :
  ParseLhs 2 (parser_on ∅ "a") = Some (Some (VariableAST "a"), after_a).
Proof. vm_compute. reflexivity. Qed.

(** What [ParseBinOpRhs] does there: it returns [nullptr]. *)
Lemma after_a_is_null k :
  ParseBinOpRhs (2 + k) 0 (VariableAST "a") after_a =
  Some (None,
        mkParser (mkScanner "" EOF "a" (S754_zero false)) tok_eof
                 {[ char_of_int tok_eof := 0 ]}
                 ["Invalid expression. Expected LHS."%string]).
Proof.
  apply (proj2 (proj2 (proj2 (proj2 (proj2 (fuel_le 2 (2 + k) ltac:(lia))))))).
  vm_compute. reflexivity.
Qed.

Lemma absent_token_is_consumed_witness :
  ORDER_OF_OPS_at tok_eof after_a =
    Some (0, mkParser (scanner after_a) tok_eof
                      (<[char_of_int tok_eof := 0]> ∅) []) /\
  forall r p', ParseBinOpRhs 3 0 (VariableAST "a") after_a = Some (r, p') ->
               r <> Some (VariableAST "a").
Proof.
  apply (absent_token_is_consumed 3 after_a (VariableAST "a")). reflexivity.
Defined.

(** The loop is stuck on each of these three tokens: no branch of the
    [switch] reads a token for them. *)
Lemma TopLevelParse_stuck fuel : forall p,
  CurrToken p = tok_func \/ CurrToken p = tok_import \/
  CurrToken p = code ";" ->
  TopLevelParse fuel p = None.
Proof.
  induction fuel as [|f IH]; intros p H; [reflexivity|].
  cbn [TopLevelParse]. unfold bind, TopLevelParse_body.
  destruct H as [H|[H|H]]; rewrite H; apply (IH p); rewrite H; auto.
Qed.

(** C3. The main loop does not end on every input.  On the input [;], and
    as well on [func f(x) x] and on [import m], [main] returns under no
    recursion bound: the first turn of the loop fails to parse an expression
    (no token is read yet) and reads the first token, and from then on the
    loop turns on that token for ever, since [case ';'] reads nothing and
    [HandleFuncDef] and [HandleImport] test the address of the parsing
    function where they mean to call it. *)
Theorem main_never_returns fuel :
  main fuel ";" = None /\
  main fuel "func f(x) x" = None /\
  main fuel "import m" = None.
Proof.
  unfold main.
  destruct fuel as [|[|[|f]]]; try (repeat split; reflexivity).
  cbn [TopLevelParse]. unfold bind. repeat split.
  - replace (TopLevelParse_body (S (S f)) (parser_init ∅ ";")) with
      (Some (Some tt,
             mkParser (mkScanner "" EOF "" (S754_zero false)) (code ";")
                      ∅ ["Invalid expression. Expected LHS."%string]))
      by (vm_compute; reflexivity).
    apply TopLevelParse_stuck. auto.
  - replace (TopLevelParse_body (S (S f)) (parser_init ∅ "func f(x) x")) with
      (Some (Some tt,
             mkParser (mkScanner "f(x) x" (code " ") "func" (S754_zero false))
                      tok_func
                      ∅ ["Invalid expression. Expected LHS."%string]))
      by (vm_compute; reflexivity).
    apply TopLevelParse_stuck. auto.
  - replace (TopLevelParse_body (S (S f)) (parser_init ∅ "import m")) with
      (Some (Some tt,
             mkParser (mkScanner "m" (code " ") "import" (S754_zero false))
                      tok_import
                      ∅ ["Invalid expression. Expected LHS."%string]))
      by (vm_compute; reflexivity).
    apply TopLevelParse_stuck. auto.
Qed.

(** C4. Parsing [func add(a, b) a + b] as a function definition does not
    succeed.  [ParseFuncDef] eats [func] and [ParseFuncProto] eats one token
    more, the name [add], so the prototype starts at ['('] and fails with
    "Expected identifier"; the result is [nullptr] under every bound. *)
Theorem func_add_is_null fuel :
  ParseFuncDef fuel (parser_on add_table "func add(a, b) a + b") =
  Some (None,
        mkParser (mkScanner ", b) a + b" (code "a") "add" (S754_zero false))
                 (code "(") add_table
                 ["Expected identifier in function definition."%string]).
Proof. vm_compute. reflexivity. Qed.

(** C5. With [-] at precedence 10, parsing [a - b - c] does not yield the
    tree [(a - b) - c]: as for C1, the end of input is looked up as 0, is
    eaten as an operator, and the result is [nullptr]. *)
Theorem left_assoc_is_null k :
  ParseExpr (6 + k) (parser_on minus_table "a - b - c") =
  Some (None,
        mkParser (mkScanner "" EOF "c" (S754_zero false)) tok_eof
                 (<[ char_of_int tok_eof := 0 ]> minus_table)
                 ["Invalid expression. Expected LHS."%string]).
Proof.
  apply (ParseExpr_fuel_le 6); [lia|]. vm_compute. reflexivity.
Qed.

(** C6. With [+] at 10 and [*] at 20, parsing [(a + b) * c] does not yield
    the tree [(a + b) * c]: inside the parentheses [')'] is looked up as 0
    and eaten as an operator, [*] is no operand, the inner expression is
    [nullptr] and, the current token being [*] by then, [ParseParenExpr]
    reports a missing [')']. *)
Theorem paren_product_is_null k :
  ParseExpr (7 + k) (parser_on sum_product_table "(a + b) * c") =
  Some (None,
        mkParser (mkScanner "c" (code " ") "b" (S754_zero false)) (code "*")
                 (<[ char_of_int (code ")") := 0 ]> sum_product_table)
                 ["Invalid expression. Expected LHS."%string;
                  "Expected ')'."%string]).
Proof.
  apply (ParseExpr_fuel_le 7); [lia|]. vm_compute. reflexivity.
Qed.

(** C8. When [ParseTopLevelExpr] succeeds its result is a [FunctionAST]
    whose prototype has no parameters and the name [__anon_func__], and
    whose body is the expression that [ParseExpr] returns from the same
    state, with the same state after it. *)
Theorem ParseTopLevelExpr_wraps fuel p r p' :
  ParseTopLevelExpr fuel p = Some (Some r, p') ->
  exists expr,
    ParseExpr fuel p = Some (Some expr, p') /\
    r = FunctionAST (mkFuncProtoAST [] "__anon_func__") expr.
Proof.
  unfold ParseTopLevelExpr, bind. intros H.
  destruct (ParseExpr fuel p) as [[[expr|] p1]|]; try discriminate.
  injection H as <- <-. eauto.
Qed.

Lemma ParseTopLevelExpr_wraps_witness :
  exists expr,
    ParseExpr 3 (parser_on (with_low_eof ∅) "a") =
      Some (Some expr, mkParser (mkScanner "" EOF "a" (S754_zero false))
                                tok_eof (with_low_eof ∅) []) /\
    FunctionAST (mkFuncProtoAST [] "__anon_func__") (VariableAST "a") =
    FunctionAST (mkFuncProtoAST [] "__anon_func__") expr.
Proof.
  apply (ParseTopLevelExpr_wraps 3 (parser_on (with_low_eof ∅) "a")).
  vm_compute. reflexivity.
Defined.

(** C9. A prototype with a comma after its first parameter fails.  When
    the tokens after the current one are a name, ['('], a parameter name
    and [','], [ParseFuncProto] returns [nullptr] and prints "Expected
    identifier in function definition.": the loop tests the token after
    the parameter for [','] and goes round with the comma as the current
    token, where it wants an identifier.  The table is left as it was. *)
Theorem ParseFuncProto_comma_fails fuel p p1 p2 p3 p4 :
  GetNextToken p = Some (tok_identifier, p1) ->
  GetNextToken p1 = Some (code "(", p2) ->
  GetNextToken p2 = Some (tok_identifier, p3) ->
  GetNextToken p3 = Some (code ",", p4) ->
  ParseFuncProto (S (S fuel)) p =
  Some (None,
        mkParser (scanner p4) (code ",") (ORDER_OF_OPS p)
                 (stderr p
                  ++ ["Expected identifier in function definition."%string])).
Proof.
  intros H1 H2 H3 H4.
  destruct (GetNextToken_CurrToken _ _ _ H1) as (C1 & O1 & E1).
  destruct (GetNextToken_CurrToken _ _ _ H2) as (C2 & O2 & E2).
  destruct (GetNextToken_CurrToken _ _ _ H3) as (C3 & O3 & E3).
  destruct (GetNextToken_CurrToken _ _ _ H4) as (C4 & O4 & E4).
  unfold ParseFuncProto, bind. rewrite H1, C1. cbn [Z.eqb tok_identifier negb].
  rewrite H2, C2. replace (code "(" =? code "(") with true by reflexivity.
  cbn [negb]. rewrite H3.
  cbn [ParseFuncProto_args]. rewrite C3. cbn [Z.eqb tok_identifier negb].
  unfold bind. rewrite H4.
  replace (code "," =? code ",") with true by reflexivity.
  rewrite C4. replace (code "," =? tok_identifier) with false by reflexivity.
  cbn [negb]. unfold RaiseError.
  rewrite C4, O4, O3, O2, O1, E4, E3, E2, E1. reflexivity.
Qed.

Lemma ParseFuncProto_comma_fails_witness :
  ParseFuncProto 2 (parser_on add_table "func add(a, b) a + b") =
  Some (None,
        mkParser (mkScanner "b) a + b" (code " ") "a" (S754_zero false))
                 (code ",") add_table
                 ["Expected identifier in function definition."%string]).
Proof.
  apply (ParseFuncProto_comma_fails 0
           (parser_on add_table "func add(a, b) a + b")
           (mkParser (mkScanner "a, b) a + b" (code "(") "add"
                                (S754_zero false))
                     tok_identifier add_table [])
           (mkParser (mkScanner ", b) a + b" (code "a") "add"
                                (S754_zero false))
                     (code "(") add_table [])
           (mkParser (mkScanner " b) a + b" (code ",") "a" (S754_zero false))
                     tok_identifier add_table [])
           (mkParser (mkScanner "b) a + b" (code " ") "a" (S754_zero false))
                     (code ",") add_table []));
    vm_compute; reflexivity.
Defined.

(** * Further properties of the scanner *)

Lemma chr_code a : chr (code a) = a.
Proof. unfold chr, code. rewrite N2Z.id. apply ascii_N_embedding. Qed.

Lemma skip_space_not_space input : forall last,
  isspace (fst (skip_space last input)) = false.
Proof.
  induction input as [|c rest IH]; intros last; simpl.
  - destruct (isspace last) eqn:E; [reflexivity|exact E].
  - destruct (isspace last) eqn:E; [apply IH|exact E].
Qed.

Lemma skip_space_app ws : forall last rest,
  isspace last = true -> all_chars isspace ws = true ->
  skip_space last (ws ++ rest) = skip_space last rest.
Proof.
  induction ws as [|c ws IH]; intros last rest Hl Hws; [reflexivity|].
  simpl in Hws. apply andb_prop in Hws as [Hc Hws].
  simpl. rewrite Hl. rewrite (IH _ rest Hc Hws).
  destruct rest; simpl; rewrite Hc, ?Hl; reflexivity.
Qed.

Lemma read_identifier_app w : forall tail,
  all_chars isalnum w = true -> head_is isalnum tail = false ->
  read_identifier (w ++ tail) = (w, fst (getchar tail), snd (getchar tail)).
Proof.
  induction w as [|c w IH]; intros tail Hw Ht; simpl.
  - destruct tail as [|c rest]; [reflexivity|]. simpl in *. now rewrite Ht.
  - simpl in Hw. apply andb_prop in Hw as [Hc Hw].
    rewrite Hc, (IH _ Hw Ht). reflexivity.
Qed.

Lemma read_number_app r : forall last tail,
  all_chars isnumeric r = true -> head_is isnumeric tail = false ->
  read_number last (r ++ tail) =
  (String (chr last) r, fst (getchar tail), snd (getchar tail)).
Proof.
  unfold isnumeric.
  induction r as [|c r IH]; intros last tail Hr Ht; simpl.
  - destruct tail as [|c rest]; [reflexivity|]. simpl in *. now rewrite Ht.
  - simpl in Hr. apply andb_prop in Hr as [Hc Hr].
    rewrite Hc, (IH _ _ Hr Ht), chr_code. reflexivity.
Qed.

(** X2. A word is read whole.  When the next character that is no space is a
    letter and the letters and digits after it are [w], up to a character
    that is neither (or the end of the input), [gettok] returns [tok_func]
    for [func], [tok_import] for [import] and [tok_identifier] otherwise,
    with the whole word in [IdentifierStr] and the character after the word
    pending in [LastChar]; [NumVal] is not touched. *)
Theorem gettok_word sc a w tail :
  skip_space (LastChar sc) (stdin sc) = (code a, (w ++ tail)%string) ->
  isalpha (code a) = true ->
  all_chars isalnum w = true ->
  head_is isalnum tail = false ->
  gettok sc =
  (word_token (String a w),
   mkScanner (snd (getchar tail)) (fst (getchar tail)) (String a w)
             (NumVal sc)).
Proof.
  intros Hsp Ha Hw Ht. apply (gettok_rec_gettok 1).
  cbn [gettok_rec]. rewrite Hsp, Ha, (read_identifier_app _ _ Hw Ht), chr_code.
  unfold word_token.
  destruct (String.eqb (String a w) "func"); [reflexivity|].
  destruct (String.eqb (String a w) "import"); reflexivity.
Qed.

Lemma gettok_word_witness :
  gettok (scanner_init "  import2 x") =
  (tok_identifier, mkScanner "x" (code " ") "import2" (S754_zero false)).
Proof.
  apply (gettok_word (scanner_init "  import2 x") "i" "mport2" " x");
    reflexivity.
Defined.

Lemma isalpha_not_numeric c : isalpha c = true -> isnumeric c = false.
Proof.
  unfold isalpha, isnumeric, isdigit. change (code ".") with 46.
  rewrite orb_true_iff, !andb_true_iff, !Z.leb_le.
  rewrite orb_false_iff, andb_false_iff, !Z.leb_gt, Z.eqb_neq. lia.
Qed.

(** X3. A number is the longest run of digits and dots, however many dots it
    holds: [gettok] returns [tok_number], [NumVal] is [strtod] of the whole
    run, the character after the run is pending, and [IdentifierStr] is not
    touched. *)
Theorem gettok_number sc d r tail :
  skip_space (LastChar sc) (stdin sc) = (code d, (r ++ tail)%string) ->
  isnumeric (code d) = true ->
  all_chars isnumeric r = true ->
  head_is isnumeric tail = false ->
  gettok sc =
  (tok_number,
   mkScanner (snd (getchar tail)) (fst (getchar tail)) (IdentifierStr sc)
             (strtod (String d r))).
Proof.
  intros Hsp Hd Hr Ht. apply (gettok_rec_gettok 1).
  cbn [gettok_rec]. rewrite Hsp.
  destruct (isalpha (code d)) eqn:Ea.
  { apply isalpha_not_numeric in Ea. congruence. }
  unfold isnumeric in Hd. rewrite Hd.
  rewrite (read_number_app _ _ _ Hr Ht), chr_code. reflexivity.
Qed.

Lemma gettok_number_witness :
  gettok (scanner_init "1.5.2+x") =
  (tok_number,
   mkScanner "x" (code "+") "" (strtod "1.5.2")).
Proof.
  apply (gettok_number (scanner_init "1.5.2+x") "1" ".5.2" "+x"); reflexivity.
Defined.

Lemma getchar_ok s : fst (getchar s) = EOF -> snd (getchar s) = EmptyString.
Proof.
  destruct s as [|c s]; [reflexivity|]. simpl.
  pose proof (code_nonneg c). unfold EOF. lia.
Qed.

Lemma skip_space_ok input : forall last,
  (last = EOF -> input = EmptyString) ->
  fst (skip_space last input) = EOF ->
  snd (skip_space last input) = EmptyString.
Proof.
  induction input as [|c rest IH]; intros last Hok; simpl.
  - destruct (isspace last); reflexivity.
  - destruct (isspace last); simpl; [|exact Hok].
    apply IH. pose proof (code_nonneg c). unfold EOF. lia.
Qed.

Lemma read_identifier_ok input s last rest :
  read_identifier input = (s, last, rest) -> last = EOF -> rest = EmptyString.
Proof.
  revert s last rest.
  induction input as [|c input IH]; intros s last rest; simpl.
  - intros [= _ _ <-]. reflexivity.
  - destruct (isalnum (code c)).
    + destruct (read_identifier input) as [[s0 l0] r0].
      intros [= _ <- <-]. now apply (IH s0).
    + intros [= _ <- _] E. pose proof (code_nonneg c). unfold EOF in E. lia.
Qed.

Lemma read_number_ok input : forall l0 s last rest,
  read_number l0 input = (s, last, rest) -> last = EOF -> rest = EmptyString.
Proof.
  induction input as [|c input IH]; intros l0 s last rest; simpl.
  - intros [= _ _ <-]. reflexivity.
  - destruct (isdigit (code c) || (code c =? code ".")).
    + destruct (read_number (code c) input) as [[s1 l1] r1] eqn:E.
      intros [= _ <- <-]. now apply (IH _ _ _ _ E).
    + intros [= _ <- _] E. pose proof (code_nonneg c). unfold EOF in E. lia.
Qed.

Lemma skip_comment_ok input last rest :
  skip_comment input = (last, rest) -> last = EOF -> rest = EmptyString.
Proof.
  revert last rest.
  induction input as [|c input IH]; intros last rest; simpl.
  - intros [= _ <-]. reflexivity.
  - destruct ((code c =? 10) || (code c =? 13)).
    + intros [= <- _] E. pose proof (code_nonneg c). unfold EOF in E. lia.
    + apply IH.
Qed.

Lemma gettok_rest_ok sc t sc' :
  scanner_ok sc -> gettok_rest sc = (t, sc') ->
  scanner_ok sc' /\ (t = tok_eof -> LastChar sc' = EOF).
Proof.
  unfold gettok_rest, scanner_ok. intros Hok.
  destruct (LastChar sc =? EOF) eqn:E.
  - intros [= <- <-]. apply Z.eqb_eq in E. auto.
  - apply Z.eqb_neq in E.
    destruct (getchar (stdin sc)) as [c input] eqn:G.
    intros [= <- <-]. cbn [LastChar stdin]. split.
    + intros Hc. pose proof (getchar_ok (stdin sc)) as H.
      rewrite G in H. now apply H.
    + intros Ht. unfold tok_eof, EOF in *. lia.
Qed.

Lemma gettok_rec_ok depth : forall sc t sc',
  scanner_ok sc -> gettok_rec depth sc = Some (t, sc') ->
  scanner_ok sc' /\ (t = tok_eof -> LastChar sc' = EOF).
Proof.
  induction depth as [|d IH]; intros sc t sc' Hok; [discriminate|].
  cbn [gettok_rec].
  pose proof (skip_space_ok (stdin sc) (LastChar sc) Hok) as Hsp.
  destruct (skip_space (LastChar sc) (stdin sc)) as [c input].
  cbn [fst snd] in Hsp.
  destruct (isalpha c).
  { destruct (read_identifier input) as [[s last] input'] eqn:R.
    pose proof (read_identifier_ok _ _ _ _ R) as Hr.
    repeat destruct (_ =? _)%string; intros [= <- <-];
      (split; [exact Hr | discriminate]). }
  destruct (isdigit c || (c =? code ".")).
  { destruct (read_number c input) as [[s last] input'] eqn:R.
    pose proof (read_number_ok _ _ _ _ _ R) as Hr.
    intros [= <- <-]. split; [exact Hr | discriminate]. }
  destruct (c =? code "#").
  - destruct (skip_comment input) as [last input'] eqn:R.
    pose proof (skip_comment_ok _ _ _ R) as Hr.
    destruct (negb (last =? EOF)).
    + apply IH. exact Hr.
    + intros [= H]. revert H. apply gettok_rest_ok. exact Hr.
  - intros [= H]. revert H. apply gettok_rest_ok. exact Hsp.
Qed.

Lemma gettok_at_eof sc : LastChar sc = EOF -> gettok sc = (tok_eof, sc).
Proof.
  intros H. apply (gettok_rec_gettok 1). cbn [gettok_rec].
  destruct (stdin sc) eqn:Es; rewrite H; cbn.
  all: destruct sc; cbn in *; subst; reflexivity.
Qed.

(** X5. [tok_eof] means the input is used up.  From a scanner that has nothing
    left to read once [LastChar] is [EOF] (as at the start), [gettok] leads
    to such a scanner again, and when it returns [tok_eof] no input is
    left, [LastChar] is [EOF], and every later call returns [tok_eof] and
    changes nothing. *)
Theorem gettok_eof_means_end sc t sc' :
  scanner_ok sc -> gettok sc = (t, sc') ->
  scanner_ok sc' /\
  (t = tok_eof ->
   stdin sc' = EmptyString /\ LastChar sc' = EOF /\
   gettok sc' = (tok_eof, sc')).
Proof.
  intros Hok H.
  destruct (gettok_rec_total (String.length (stdin sc)) sc) as [r Hr]; [lia|].
  pose proof (gettok_rec_gettok _ _ _ Hr) as Hg. rewrite H in Hg. subst r.
  destruct (gettok_rec_ok _ _ _ _ Hok Hr) as [Hok' Heof].
  split; [exact Hok'|]. intros Ht. specialize (Heof Ht).
  repeat split; [now apply Hok' | exact Heof | now apply gettok_at_eof].
Qed.

Lemma gettok_eof_means_end_witness :
  scanner_ok (mkScanner "" EOF "x" (S754_zero false)) /\
  (tok_eof = tok_eof ->
   stdin (mkScanner "" EOF "x" (S754_zero false)) = EmptyString /\
   LastChar (mkScanner "" EOF "x" (S754_zero false)) = EOF /\
   gettok (mkScanner "" EOF "x" (S754_zero false)) =
     (tok_eof, mkScanner "" EOF "x" (S754_zero false))).
Proof.
  apply (gettok_eof_means_end
           (mkScanner " # end" (code " ") "x" (S754_zero false)) tok_eof).
  - intros H. discriminate H.
  - reflexivity.
Defined.

Lemma gettok_rec_skips_space depth ws rest last id nv :
  isspace last = true -> all_chars isspace ws = true ->
  gettok_rec depth (mkScanner (ws ++ rest) last id nv) =
  gettok_rec depth (mkScanner rest last id nv).
Proof.
  intros Hl Hws. destruct depth as [|d]; [reflexivity|].
  cbn [gettok_rec stdin LastChar IdentifierStr NumVal].
  rewrite (skip_space_app _ _ _ Hl Hws). reflexivity.
Qed.

(** X4. Space before a token changes nothing: with a space pending, [gettok]
    on an input that starts with the spaces [ws] returns what it returns
    without them, token and scanner. *)
Theorem gettok_skips_space ws rest last id nv :
  isspace last = true -> all_chars isspace ws = true ->
  gettok (mkScanner (ws ++ rest) last id nv) =
  gettok (mkScanner rest last id nv).
Proof.
  intros Hl Hws.
  destruct (gettok_rec_total (String.length rest) (mkScanner rest last id nv))
    as [r Hr]; [reflexivity|].
  rewrite (gettok_rec_gettok _ _ _ Hr).
  apply (gettok_rec_gettok (S (String.length rest))).
  rewrite (gettok_rec_skips_space _ _ _ _ _ _ Hl Hws). exact Hr.
Qed.

Lemma gettok_skips_space_witness :
  gettok (mkScanner (String "009" (String "010" "  ") ++ "x+1") (code " ")
                    "" (S754_zero false)) =
  gettok (mkScanner "x+1" (code " ") "" (S754_zero false)).
Proof.
  apply (gettok_skips_space (String "009" (String "010" "  ")) "x+1");
    reflexivity.
Defined.

Lemma gettok_rec_never depth : forall sc t sc',
  gettok_rec depth sc = Some (t, sc') ->
  isspace t = false /\ isalnum t = false /\
  (t =? code ".") = false /\ (t =? code "#") = false.
Proof.
  induction depth as [|d IH]; intros sc t sc'; [discriminate|].
  cbn [gettok_rec].
  pose proof (skip_space_not_space (stdin sc) (LastChar sc)) as Hsp.
  destruct (skip_space (LastChar sc) (stdin sc)) as [c input].
  cbn [fst] in Hsp.
  destruct (isalpha c) eqn:Ea.
  { destruct (read_identifier input) as [[s last] input'].
    repeat destruct (_ =? _)%string; intros [= <- <-]; repeat split. }
  destruct (isdigit c || (c =? code ".")) eqn:Ed.
  { destruct (read_number c input) as [[s last] input'].
    intros [= <- <-]. repeat split. }
  apply orb_false_iff in Ed as [Ed Edot].
  assert (Hrest : forall sc0, LastChar sc0 = c \/ LastChar sc0 = EOF ->
            (c =? code "#") = false \/ LastChar sc0 = EOF ->
            gettok_rest sc0 = (t, sc') ->
            isspace t = false /\ isalnum t = false /\
            (t =? code ".") = false /\ (t =? code "#") = false).
  { intros sc0 Hc Hh. unfold gettok_rest.
    destruct (LastChar sc0 =? EOF) eqn:E.
    - intros [= <- <-]. repeat split.
    - apply Z.eqb_neq in E. destruct (getchar (stdin sc0)).
      intros [= <- <-].
      destruct Hc as [Hc|Hc]; [|contradiction].
      destruct Hh as [Hh|Hh]; [|contradiction].
      rewrite Hc. unfold isalnum. rewrite Ea, Ed. auto. }
  destruct (c =? code "#") eqn:Eh.
  - destruct (skip_comment input) as [last input'].
    destruct (last =? EOF) eqn:El; cbn [negb].
    + intros [= H]. apply Z.eqb_eq in El.
      apply (Hrest (mkScanner input' last (IdentifierStr sc) (NumVal sc))
               (or_intror El) (or_intror El) H).
    + apply IH.
  - intros [= H].
    apply (Hrest (mkScanner input c (IdentifierStr sc) (NumVal sc))
             (or_introl eq_refl) (or_introl eq_refl) H).
Qed.

(** X6. What [gettok] never returns: the token is never the code of a space,
    a letter, a digit, a dot or ['#'].  Those characters only ever reach the
    parser inside an identifier, a keyword or a number, or not at all. *)
Theorem gettok_token_is_no_word_character sc :
  isspace (fst (gettok sc)) = false /\
  isalnum (fst (gettok sc)) = false /\
  fst (gettok sc) <> code "." /\
  fst (gettok sc) <> code "#".
Proof.
  destruct (gettok_rec_total (String.length (stdin sc)) sc) as [[t sc'] Hr];
    [lia|].
  rewrite (gettok_rec_gettok _ _ _ Hr). cbn [fst].
  destruct (gettok_rec_never _ _ _ _ Hr) as (H1 & H2 & H3 & H4).
  repeat split; auto; now apply Z.eqb_neq.
Qed.

(** * Further properties of the parser *)

Lemma keeps_ParseFuncProto_args fuel : forall args,
  keeps (ParseFuncProto_args fuel args) (fun _ => True).
Proof.
  induction fuel as [|f IH]; intros args; [apply keeps_out_of_fuel|].
  cbn [ParseFuncProto_args]. keeps_read.
  - eapply keeps_weaken; [apply keeps_RaiseError | auto].
  - eapply keeps_bind; [apply keeps_GetNextToken|]. intros t _.
    destruct (t =? code ","); [apply IH | now apply keeps_ret].
Qed.

Lemma keeps_ParseFuncProto fuel : keeps (ParseFuncProto fuel) (fun _ => True).
Proof.
  unfold ParseFuncProto.
  eapply keeps_bind; [apply keeps_GetNextToken|]. intros _ _.
  keeps_read.
  { eapply keeps_weaken; [apply keeps_RaiseError | auto]. }
  eapply keeps_bind; [apply keeps_GetNextToken|]. intros _ _.
  keeps_read.
  { eapply keeps_weaken; [apply keeps_RaiseError | auto]. }
  eapply keeps_bind; [apply keeps_GetNextToken|]. intros _ _.
  eapply keeps_bind; [apply keeps_ParseFuncProto_args|].
  intros [args|] _; [|now apply keeps_ret].
  keeps_read.
  { eapply keeps_weaken; [apply keeps_RaiseError | auto]. }
  eapply keeps_bind; [apply keeps_GetNextToken|]. intros _ _.
  now apply keeps_ret.
Qed.

Lemma keeps_ParseTopLevelExpr fuel :
  keeps (ParseTopLevelExpr fuel) (fun r => r = None).
Proof.
  unfold ParseTopLevelExpr.
  eapply keeps_bind; [apply (Parse_keeps fuel)|].
  intros expr ->. now apply keeps_ret.
Qed.

Lemma keeps_ParseFuncDef fuel : keeps (ParseFuncDef fuel) (fun r => r = None).
Proof.
  unfold ParseFuncDef.
  eapply keeps_bind; [apply keeps_GetNextToken|]. intros _ _.
  eapply keeps_bind; [apply keeps_ParseFuncProto|].
  intros [proto|] _; [|now apply keeps_ret].
  eapply keeps_bind; [apply (Parse_keeps fuel)|].
  intros body ->. now apply keeps_ret.
Qed.

(** X8. With no negative precedence in the table nothing parses.  From a
    table whose values are all 0 or more (the empty table of [main] is one),
    [ParseExpr], [ParseTopLevelExpr] and [ParseFuncDef] return [nullptr]
    whenever they return, on every input, and leave such a table: the only
    way out of [ParseBinOpRhs] at the minimum 0 is a token of negative
    precedence, and a lookup never yields one there. *)
Theorem nothing_parses_without_negative_precedence fuel p r p' :
  table_nonneg p ->
  ParseExpr fuel p = Some (r, p') \/
  ParseTopLevelExpr fuel p = Some (r, p') \/
  ParseFuncDef fuel p = Some (r, p') ->
  r = None /\ table_nonneg p'.
Proof.
  intros Hp [E|[E|E]].
  - destruct (proj1 (Parse_keeps fuel) _ _ _ Hp E); auto.
  - destruct (keeps_ParseTopLevelExpr fuel _ _ _ Hp E); auto.
  - destruct (keeps_ParseFuncDef fuel _ _ _ Hp E); auto.
Qed.

Lemma table_nonneg_empty sc t err : table_nonneg (mkParser sc t ∅ err).
Proof. intros k v. cbn [ORDER_OF_OPS]. rewrite lookup_empty. discriminate. Qed.

Lemma nothing_parses_without_negative_precedence_witness :
  @None ExprAST = None /\
  table_nonneg
    (mkParser (mkScanner "" EOF "b" (S754_zero false)) tok_eof
              {[ char_of_int (code "+") := 0; char_of_int tok_eof := 0 ]}
              ["Invalid expression. Expected LHS."%string]).
Proof.
  apply (nothing_parses_without_negative_precedence 6
           (mkParser (mkScanner "+ b" (code " ") "a" (S754_zero false))
                     tok_identifier ∅ [])).
  - apply table_nonneg_empty.
  - left. vm_compute. reflexivity.
Defined.





(** X15. A prototype that parses has exactly one parameter: whenever
    [ParseFuncProto] returns a prototype, the three tokens after the current
    one were a name, ['('] and an identifier, and the prototype holds that
    name and that one parameter. *)
Theorem ParseFuncProto_one_parameter fuel p proto p' :
  ParseFuncProto fuel p = Some (Some proto, p') ->
  exists p1 p2 p3,
    GetNextToken p = Some (tok_identifier, p1) /\
    GetNextToken p1 = Some (code "(", p2) /\
    GetNextToken p2 = Some (tok_identifier, p3) /\
    proto = mkFuncProtoAST [IdentifierStr (scanner p3)]
                           (IdentifierStr (scanner p1)).
Proof.
  unfold ParseFuncProto, bind. intros H.
  destruct (GetNextToken p) as [[t1 p1]|] eqn:G1; [|discriminate].
  destruct (GetNextToken_CurrToken _ _ _ G1) as (C1 & _ & _).
  destruct (CurrToken p1 =? tok_identifier) eqn:E1; cbn [negb] in H;
    [|discriminate].
  apply Z.eqb_eq in E1.
  destruct (GetNextToken p1) as [[t2 p2]|] eqn:G2; [|discriminate].
  destruct (GetNextToken_CurrToken _ _ _ G2) as (C2 & _ & _).
  destruct (CurrToken p2 =? code "(") eqn:E2; cbn [negb] in H;
    [|discriminate].
  apply Z.eqb_eq in E2.
  destruct (GetNextToken p2) as [[t3 p3]|] eqn:G3; [|discriminate].
  destruct (GetNextToken_CurrToken _ _ _ G3) as (C3 & _ & _).
  destruct (ParseFuncProto_args fuel [] p3) as [[[args|] p4]|] eqn:A;
    try discriminate.
  pose proof (ParseFuncProto_args_one _ _ _ _ _ A) as ->.
  assert (T3 : t3 = tok_identifier).
  { destruct fuel as [|f]; [discriminate|]. cbn [ParseFuncProto_args] in A.
    destruct (CurrToken p3 =? tok_identifier) eqn:E3; [|discriminate].
    apply Z.eqb_eq in E3. congruence. }
  destruct (negb (CurrToken p4 =? code ")")); [discriminate|].
  destruct (GetNextToken p4) as [[t5 p5]|]; [|discriminate].
  injection H as <- _.
  exists p1, p2, p3. repeat split; congruence.
Qed.

Lemma ParseFuncProto_one_parameter_witness :
  exists p1 p2 p3,
    GetNextToken (parser_on add_table "func inc(n) n + 1") =
      Some (tok_identifier, p1) /\
    GetNextToken p1 = Some (code "(", p2) /\
    GetNextToken p2 = Some (tok_identifier, p3) /\
    mkFuncProtoAST ["n"%string] "inc" =
    mkFuncProtoAST [IdentifierStr (scanner p3)] (IdentifierStr (scanner p1)).
Proof.
  apply (ParseFuncProto_one_parameter 1
           (parser_on add_table "func inc(n) n + 1")
           (mkFuncProtoAST ["n"%string] "inc")
           (mkParser (mkScanner "+ 1" (code " ") "n" (S754_zero false))
                     tok_identifier add_table [])).
  vm_compute. reflexivity.
Defined.

(** X14. A prototype with one parameter parses: when the tokens after the
    current one are a name, ['('], a parameter name and [')'],
    [ParseFuncProto] returns the prototype of that name and parameter,
    prints nothing, and leaves the token after [')'] current. *)
Theorem ParseFuncProto_single fuel p p1 p2 p3 p4 t5 p5 :
  GetNextToken p = Some (tok_identifier, p1) ->
  GetNextToken p1 = Some (code "(", p2) ->
  GetNextToken p2 = Some (tok_identifier, p3) ->
  GetNextToken p3 = Some (code ")", p4) ->
  GetNextToken p4 = Some (t5, p5) ->
  ParseFuncProto (S fuel) p =
  Some (Some (mkFuncProtoAST [IdentifierStr (scanner p3)]
                             (IdentifierStr (scanner p1))), p5).
Proof.
  intros H1 H2 H3 H4 H5.
  destruct (GetNextToken_CurrToken _ _ _ H1) as (C1 & _).
  destruct (GetNextToken_CurrToken _ _ _ H2) as (C2 & _).
  destruct (GetNextToken_CurrToken _ _ _ H3) as (C3 & _).
  destruct (GetNextToken_CurrToken _ _ _ H4) as (C4 & _).
  unfold ParseFuncProto, bind. rewrite H1, C1. cbn [Z.eqb Pos.eqb tok_identifier negb].
  rewrite H2, C2. replace (code "(" =? code "(") with true by reflexivity.
  cbn [negb]. rewrite H3.
  cbn [ParseFuncProto_args]. rewrite C3. cbn [Z.eqb Pos.eqb tok_identifier negb].
  unfold bind. rewrite H4.
  replace (code ")" =? code ",") with false by reflexivity.
  cbn [ret app]. rewrite C4.
  replace (code ")" =? code ")") with true by reflexivity.
  cbn [negb]. rewrite H5. reflexivity.
Qed.

Lemma ParseFuncProto_single_witness :
  ParseFuncProto 1 (parser_on add_table "func inc(n) n + 1") =
  Some (Some (mkFuncProtoAST ["n"%string] "inc"),
        mkParser (mkScanner "+ 1" (code " ") "n" (S754_zero false))
                 tok_identifier add_table []).
Proof.
  apply (ParseFuncProto_single 0 (parser_on add_table "func inc(n) n + 1")
           (mkParser (mkScanner "n) n + 1" (code "(") "inc" (S754_zero false))
                     tok_identifier add_table [])
           (mkParser (mkScanner ") n + 1" (code "n") "inc" (S754_zero false))
                     (code "(") add_table [])
           (mkParser (mkScanner " n + 1" (code ")") "n" (S754_zero false))
                     tok_identifier add_table [])
           (mkParser (mkScanner "n + 1" (code " ") "n" (S754_zero false))
                     (code ")") add_table [])
           tok_identifier);
    vm_compute; reflexivity.
Defined.





(** ** The rules of precedence climbing *)

Lemma ParseLhs_fuel_le fuel fuel' :
  (fuel <= fuel')%nat -> below (ParseLhs fuel) (ParseLhs fuel').
Proof. intros H. apply (fuel_le fuel fuel' H). Qed.

Lemma ParseBinOpRhs_fuel_le fuel fuel' e l :
  (fuel <= fuel')%nat ->
  below (ParseBinOpRhs fuel e l) (ParseBinOpRhs fuel' e l).
Proof. intros H. apply (fuel_le fuel fuel' H). Qed.

(** A token whose precedence in the table is below the minimum ends the
    loop: the left-hand side comes back as it is and the token stays. *)
Lemma ParseBinOpRhs_stop fuel e l p v :
  ORDER_OF_OPS p !! char_of_int (CurrToken p) = Some v -> v < e ->
  ParseBinOpRhs (S fuel) e l p = Some (Some l, p).
Proof.
  intros Hv Hlt. cbn [ParseBinOpRhs]. unfold bind.
  rewrite (ORDER_OF_OPS_at_present _ _ _ Hv).
  apply Z.ltb_lt in Hlt. rewrite Hlt. reflexivity.
Qed.

(** An operator that the next operator does not bind tighter than takes
    the operand that follows it, and the loop goes on from there. *)
Lemma ParseBinOpRhs_step fuel e l p v t p1 rhs p2 v2 :
  ORDER_OF_OPS p !! char_of_int (CurrToken p) = Some v -> e <= v ->
  GetNextToken p = Some (t, p1) ->
  ParseLhs fuel p1 = Some (Some rhs, p2) ->
  ORDER_OF_OPS p2 !! char_of_int (CurrToken p2) = Some v2 -> v2 <= v ->
  ParseBinOpRhs (S fuel) e l p =
  ParseBinOpRhs fuel e (BinOpAST (char_of_int (CurrToken p)) l rhs) p2.
Proof.
  intros Hv He Hg Hr Hv2 Hle. cbn [ParseBinOpRhs]. unfold bind.
  rewrite (ORDER_OF_OPS_at_present _ _ _ Hv).
  apply Z.ltb_ge in He. rewrite He, Hg, Hr.
  rewrite (ORDER_OF_OPS_at_present _ _ _ Hv2).
  apply Z.ltb_ge in Hle. rewrite Hle. reflexivity.
Qed.

(** An operator followed by one that binds tighter takes as its operand
    what the loop builds at one precedence more. *)
Lemma ParseBinOpRhs_step_tighter fuel e l p v t p1 rhs p2 v2 rhs' p3 :
  ORDER_OF_OPS p !! char_of_int (CurrToken p) = Some v -> e <= v ->
  GetNextToken p = Some (t, p1) ->
  ParseLhs fuel p1 = Some (Some rhs, p2) ->
  ORDER_OF_OPS p2 !! char_of_int (CurrToken p2) = Some v2 -> v < v2 ->
  ParseBinOpRhs fuel (v + 1) rhs p2 = Some (Some rhs', p3) ->
  ParseBinOpRhs (S fuel) e l p =
  ParseBinOpRhs fuel e (BinOpAST (char_of_int (CurrToken p)) l rhs') p3.
Proof.
  intros Hv He Hg Hr Hv2 Hlt Hin. cbn [ParseBinOpRhs]. unfold bind.
  rewrite (ORDER_OF_OPS_at_present _ _ _ Hv).
  apply Z.ltb_ge in He. rewrite He, Hg, Hr.
  rewrite (ORDER_OF_OPS_at_present _ _ _ Hv2).
  apply Z.ltb_lt in Hlt. rewrite Hlt, Hin. reflexivity.
Qed.

Lemma ParseExpr_S fuel p lhs p1 :
  ParseLhs fuel p = Some (Some lhs, p1) ->
  ParseExpr (S fuel) p = ParseBinOpRhs fuel 0 lhs p1.
Proof. intros H. cbn [ParseExpr]. unfold bind. rewrite H. reflexivity. Qed.

(** X11. An operator that binds tighter takes the operand first.  For
    three operands [x], [y], [z] that [ParseLhs] reads, with an operator of
    precedence [v1] between the first two and one of precedence [v2] between
    the last two, [0 <= v1 < v2], and after [z] a token of negative
    precedence in the table, [ParseExpr] returns [x op1 (y op2 z)] and
    leaves that token current. *)
Theorem tighter_operator_groups_right
    fuel p x p1 v1 t2 p2 y p3 v2 t4 p4 z p5 w :
  ParseLhs fuel p = Some (Some x, p1) ->
  ORDER_OF_OPS p1 !! char_of_int (CurrToken p1) = Some v1 ->
  GetNextToken p1 = Some (t2, p2) ->
  ParseLhs fuel p2 = Some (Some y, p3) ->
  ORDER_OF_OPS p3 !! char_of_int (CurrToken p3) = Some v2 ->
  GetNextToken p3 = Some (t4, p4) ->
  ParseLhs fuel p4 = Some (Some z, p5) ->
  ORDER_OF_OPS p5 !! char_of_int (CurrToken p5) = Some w ->
  0 <= v1 -> v1 < v2 -> w < 0 ->
  ParseExpr (S (S (S (S fuel)))) p =
  Some (Some (BinOpAST (char_of_int (CurrToken p1)) x
                (BinOpAST (char_of_int (CurrToken p3)) y z)), p5).
Proof.
  intros Hx Hv1 G1 Hy Hv2 G3 Hz Hw L0 L1 L2.
  rewrite (ParseExpr_S (S (S (S fuel))) p x p1)
    by (apply (ParseLhs_fuel_le fuel); [lia | exact Hx]).
  rewrite (ParseBinOpRhs_step_tighter (S (S fuel)) 0 x p1 v1 t2 p2 y p3 v2
             (BinOpAST (char_of_int (CurrToken p3)) y z) p5
             Hv1 L0 G1).
  - apply (ParseBinOpRhs_stop _ _ _ _ w Hw). lia.
  - apply (ParseLhs_fuel_le fuel); [lia | exact Hy].
  - exact Hv2.
  - exact L1.
  - rewrite (ParseBinOpRhs_step (S fuel) (v1 + 1) y p3 v2 t4 p4 z p5 w
               Hv2 ltac:(lia) G3).
    + apply (ParseBinOpRhs_stop _ _ _ _ w Hw). lia.
    + apply (ParseLhs_fuel_le fuel); [lia | exact Hz].
    + exact Hw.
    + lia.
Qed.

(** X12. Operators of equal precedence group to the left, and so does an
    operator after a tighter one.  With the tokens as for the previous
    theorem and [0 <= v2 <= v1], [ParseExpr] returns [(x op1 y) op2 z]. *)
Theorem equal_operators_group_left
    fuel p x p1 v1 t2 p2 y p3 v2 t4 p4 z p5 w :
  ParseLhs fuel p = Some (Some x, p1) ->
  ORDER_OF_OPS p1 !! char_of_int (CurrToken p1) = Some v1 ->
  GetNextToken p1 = Some (t2, p2) ->
  ParseLhs fuel p2 = Some (Some y, p3) ->
  ORDER_OF_OPS p3 !! char_of_int (CurrToken p3) = Some v2 ->
  GetNextToken p3 = Some (t4, p4) ->
  ParseLhs fuel p4 = Some (Some z, p5) ->
  ORDER_OF_OPS p5 !! char_of_int (CurrToken p5) = Some w ->
  0 <= v2 -> v2 <= v1 -> w < 0 ->
  ParseExpr (S (S (S (S fuel)))) p =
  Some (Some (BinOpAST (char_of_int (CurrToken p3))
                (BinOpAST (char_of_int (CurrToken p1)) x y) z), p5).
Proof.
  intros Hx Hv1 G1 Hy Hv2 G3 Hz Hw L0 L1 L2.
  rewrite (ParseExpr_S (S (S (S fuel))) p x p1)
    by (apply (ParseLhs_fuel_le fuel); [lia | exact Hx]).
  rewrite (ParseBinOpRhs_step (S (S fuel)) 0 x p1 v1 t2 p2 y p3 v2
             Hv1 ltac:(lia) G1).
  - rewrite (ParseBinOpRhs_step (S fuel) 0 _ p3 v2 t4 p4 z p5 w
               Hv2 L0 G3).
    + apply (ParseBinOpRhs_stop _ _ _ _ w Hw). lia.
    + apply (ParseLhs_fuel_le fuel); [lia | exact Hz].
    + exact Hw.
    + lia.
  - apply (ParseLhs_fuel_le fuel); [lia | exact Hy].
  - exact Hv2.
  - exact L1.
Qed.

Lemma tighter_operator_groups_right_witness :
  ParseExpr 6 (parser_on (with_low_eof sum_product_table) "a + b * c") =
  Some (Some (BinOpAST (code "+") (VariableAST "a")
                (BinOpAST (code "*") (VariableAST "b") (VariableAST "c"))),
        mkParser (mkScanner "" EOF "c" (S754_zero false)) tok_eof
                 (with_low_eof sum_product_table) []).
Proof.
  refine (tighter_operator_groups_right 2
            (parser_on (with_low_eof sum_product_table) "a + b * c")
            (VariableAST "a")
            (mkParser (mkScanner "b * c" (code " ") "a" (S754_zero false))
                      (code "+") (with_low_eof sum_product_table) [])
            10 tok_identifier
            (mkParser (mkScanner "* c" (code " ") "b" (S754_zero false))
                      tok_identifier (with_low_eof sum_product_table) [])
            (VariableAST "b")
            (mkParser (mkScanner "c" (code " ") "b" (S754_zero false))
                      (code "*") (with_low_eof sum_product_table) [])
            20 tok_identifier
            (mkParser (mkScanner "" EOF "c" (S754_zero false))
                      tok_identifier (with_low_eof sum_product_table) [])
            (VariableAST "c")
            (mkParser (mkScanner "" EOF "c" (S754_zero false))
                      tok_eof (with_low_eof sum_product_table) [])
            (-1) _ _ _ _ _ _ _ _ _ _ _);
    try (vm_compute; reflexivity); lia.
Defined.

Lemma equal_operators_group_left_witness :
  ParseExpr 6 (parser_on (with_low_eof minus_table) "a - b - c") =
  Some (Some (BinOpAST (code "-")
                (BinOpAST (code "-") (VariableAST "a") (VariableAST "b"))
                (VariableAST "c")),
        mkParser (mkScanner "" EOF "c" (S754_zero false)) tok_eof
                 (with_low_eof minus_table) []).
Proof.
  refine (equal_operators_group_left 2
            (parser_on (with_low_eof minus_table) "a - b - c")
            (VariableAST "a")
            (mkParser (mkScanner "b - c" (code " ") "a" (S754_zero false))
                      (code "-") (with_low_eof minus_table) [])
            10 tok_identifier
            (mkParser (mkScanner "- c" (code " ") "b" (S754_zero false))
                      tok_identifier (with_low_eof minus_table) [])
            (VariableAST "b")
            (mkParser (mkScanner "c" (code " ") "b" (S754_zero false))
                      (code "-") (with_low_eof minus_table) [])
            10 tok_identifier
            (mkParser (mkScanner "" EOF "c" (S754_zero false))
                      tok_identifier (with_low_eof minus_table) [])
            (VariableAST "c")
            (mkParser (mkScanner "" EOF "c" (S754_zero false))
                      tok_eof (with_low_eof minus_table) [])
            (-1) _ _ _ _ _ _ _ _ _ _ _);
    try (vm_compute; reflexivity); lia.
Defined.



Section Reports.

Context {A B : Type}.

Lemma reports_appends (ok : A -> bool) m : reports ok m -> appends m.
Proof. intros H p a p' E. destruct (H _ _ _ E) as (msgs & Hm & _). eauto. Qed.

Lemma reports_out_of_fuel (ok : A -> bool) : reports ok out_of_fuel.
Proof. intros p a p' E. discriminate. Qed.

Lemma gives_up_out_of_fuel (ok : A -> bool) : gives_up ok out_of_fuel.
Proof. intros p a p' E. discriminate. Qed.

Lemma reports_ret (ok : A -> bool) a : ok a = true -> reports ok (ret a).
Proof.
  intros H p a' p' [= <- <-]. exists []. rewrite app_nil_r. tauto.
Qed.

Lemma gives_up_ret (ok : A -> bool) a : ok a = false -> gives_up ok (ret a).
Proof.
  intros H p a' p' [= <- <-]. split; [exact H|].
  exists []. now rewrite app_nil_r.
Qed.

Lemma reports_RaiseError msg : reports succeeded (@RaiseError A msg).
Proof.
  intros p a p' [= <- <-]. exists [msg]. cbn. split; [reflexivity|].
  split; discriminate.
Qed.

Lemma gives_up_RaiseError msg : gives_up succeeded (@RaiseError A msg).
Proof.
  intros p a p' [= <- <-]. split; [reflexivity|]. exists [msg]. reflexivity.
Qed.

Lemma reports_bind (ok1 : A -> bool) (ok2 : B -> bool) m (k : A -> M B) :
  reports ok1 m ->
  (forall a, ok1 a = true -> reports ok2 (k a)) ->
  (forall a, ok1 a = false -> gives_up ok2 (k a)) ->
  reports ok2 (bind m k).
Proof.
  intros Hm Hk Hf p b p' E. unfold bind in E.
  destruct (m p) as [[a p1]|] eqn:Em; [|discriminate].
  destruct (Hm _ _ _ Em) as (msgs1 & S1 & I1).
  destruct (ok1 a) eqn:Ea.
  - destruct (Hk a Ea _ _ _ E) as (msgs2 & S2 & I2).
    exists msgs2. rewrite S2, S1, (proj1 I1 eq_refl), app_nil_r. auto.
  - destruct (Hf a Ea _ _ _ E) as (Hb & msgs2 & S2).
    exists (msgs1 ++ msgs2). rewrite S2, S1, app_assoc.
    split; [reflexivity|]. rewrite Hb. split; [discriminate|].
    intros H. apply app_eq_nil in H as [H _]. apply I1 in H. discriminate.
Qed.

Lemma gives_up_bind (ok2 : B -> bool) m (k : A -> M B) :
  appends m -> (forall a, gives_up ok2 (k a)) -> gives_up ok2 (bind m k).
Proof.
  intros Hm Hk p b p' E. unfold bind in E.
  destruct (m p) as [[a p1]|] eqn:Em; [|discriminate].
  destruct (Hm _ _ _ Em) as (msgs1 & S1).
  destruct (Hk a _ _ _ E) as (Hb & msgs2 & S2).
  split; [exact Hb|]. exists (msgs1 ++ msgs2). now rewrite S2, S1, app_assoc.
Qed.

End Reports.

Lemma reports_GetNextToken : reports always GetNextToken.
Proof.
  intros p t p' E. destruct (GetNextToken_CurrToken _ _ _ E) as (_ & _ & S).
  exists []. rewrite S, app_nil_r. unfold always. tauto.
Qed.

Lemma reports_ORDER_OF_OPS_at tok : reports always (ORDER_OF_OPS_at tok).
Proof.
  intros p v p' E. unfold ORDER_OF_OPS_at in E.
  destruct (ORDER_OF_OPS p !! char_of_int tok); injection E as <- <-;
    exists []; cbn [stderr]; rewrite app_nil_r; unfold always; tauto.
Qed.

(** A body that reads the state: the conditions on the state are decided,
    and what is left is the branch taken. *)
Ltac read_state :=
  lazymatch goal with
  | |- ?P (fun p => _) =>
      let p := fresh "p" in
      let a := fresh "a" in
      let p' := fresh "p'" in
      let E := fresh "E" in
      intros p a p' E; cbv beta zeta in E;
      repeat match type of E with
             | (if ?c then _ else _) = _ => destruct c eqn:?
             end;
      lazymatch type of E with
      | ?X p = Some _ =>
          let Hk := fresh "Hk" in
          cut (P X); [intros Hk; exact (Hk p a p' E) | clear E]
      end
  end.

Ltac reports_step :=
  cbv beta iota;
  match goal with
  | H : reports ?ok ?m |- reports ?ok ?m => exact H
  | H : forall x, reports _ _ |- reports _ _ => apply H
  | H : forall x y, reports _ _ |- reports _ _ => apply H
  | H : reports _ ?m |- appends ?m => exact (reports_appends _ _ H)
  | |- appends GetNextToken => exact (reports_appends _ _ reports_GetNextToken)
  | |- reports _ out_of_fuel => apply reports_out_of_fuel
  | |- gives_up _ out_of_fuel => apply gives_up_out_of_fuel
  | |- reports _ (ret _) => apply reports_ret; reflexivity
  | |- gives_up _ (ret _) => apply gives_up_ret; reflexivity
  | |- reports _ (RaiseError _) => apply reports_RaiseError
  | |- gives_up _ (RaiseError _) => apply gives_up_RaiseError
  | |- reports _ (bind GetNextToken _) =>
      apply (reports_bind always);
      [apply reports_GetNextToken | intros ? _ | intros ? ?; discriminate]
  | |- reports _ (bind (ORDER_OF_OPS_at _) _) =>
      apply (reports_bind always);
      [apply reports_ORDER_OF_OPS_at | intros ? _ | intros ? ?; discriminate]
  | |- reports _ (bind _ _) =>
      apply (reports_bind succeeded);
      [ | intros [?|] ?; [|discriminate] | intros [?|] ?; [discriminate|] ]
  | |- gives_up _ (bind _ _) => apply gives_up_bind; [|intros ?]
  | |- reports _ (if ?c then _ else _) => destruct c
  | |- gives_up _ (if ?c then _ else _) => destruct c
  | |- reports _ (fun p => _) => read_state
  | |- gives_up _ (fun p => _) => read_state
  end.

Lemma reports_ParseNumber : reports succeeded ParseNumber.
Proof. unfold ParseNumber. repeat reports_step. Qed.

Lemma Parse_reports fuel :
  reports succeeded (ParseExpr fuel) /\
  reports succeeded (ParseLhs fuel) /\
  reports succeeded (ParseParenExpr fuel) /\
  reports succeeded (ParseIdentifier fuel) /\
  (forall args, reports succeeded (ParseIdentifier_args fuel args)) /\
  (forall e l, reports succeeded (ParseBinOpRhs fuel e l)).
Proof.
  induction fuel as [|f (IH1 & IH2 & IH3 & IH4 & IH5 & IH6)].
  - repeat apply conj; intros; apply reports_out_of_fuel.
  - pose proof reports_ParseNumber.
    repeat apply conj; intros.
    + cbn [ParseExpr]. repeat reports_step.
    + cbn [ParseLhs]. repeat reports_step.
    + cbn [ParseParenExpr]. repeat reports_step.
    + cbn [ParseIdentifier]. repeat reports_step.
    + cbn [ParseIdentifier_args]. repeat reports_step.
    + cbn [ParseBinOpRhs]. repeat reports_step.
Qed.

Lemma reports_ParseFuncProto_args fuel : forall args,
  reports succeeded (ParseFuncProto_args fuel args).
Proof.
  induction fuel as [|f IH]; intros args; [apply reports_out_of_fuel|].
  cbn [ParseFuncProto_args]. repeat reports_step.
Qed.

Lemma reports_ParseFuncProto fuel : reports succeeded (ParseFuncProto fuel).
Proof.
  pose proof (reports_ParseFuncProto_args fuel).
  unfold ParseFuncProto. repeat reports_step.
Qed.

Lemma reports_ParseFuncDef fuel : reports succeeded (ParseFuncDef fuel).
Proof.
  pose proof (reports_ParseFuncProto fuel).
  pose proof (proj1 (Parse_reports fuel)).
  unfold ParseFuncDef. repeat reports_step.
Qed.

Lemma reports_ParseTopLevelExpr fuel :
  reports succeeded (ParseTopLevelExpr fuel).
Proof.
  pose proof (proj1 (Parse_reports fuel)).
  unfold ParseTopLevelExpr. repeat reports_step.
Qed.

(** X9. [nullptr] comes with a diagnostic, and only it does.  What
    [ParseExpr], [ParseTopLevelExpr] and [ParseFuncDef] print is added at
    the end of the output, and the result is [nullptr] exactly when at
    least one message was added. *)
Theorem null_exactly_when_reported fuel p r p' :
  ParseExpr fuel p = Some (r, p') \/
  ParseTopLevelExpr fuel p = Some (r, p') \/
  ParseFuncDef fuel p = Some (r, p') ->
  exists msgs,
    stderr p' = stderr p ++ msgs /\ (r = None <-> msgs <> []).
Proof.
  intros H.
  assert (R : exists msgs, stderr p' = stderr p ++ msgs /\
                           (succeeded r = true <-> msgs = [])).
  { destruct H as [E|[E|E]].
    - exact (proj1 (Parse_reports fuel) _ _ _ E).
    - exact (reports_ParseTopLevelExpr fuel _ _ _ E).
    - exact (reports_ParseFuncDef fuel _ _ _ E). }
  destruct R as (msgs & S & I). exists msgs. split; [exact S|].
  destruct r as [e|]; cbn in I.
  - split; [discriminate|]. intros N. destruct N. now apply I.
  - split; [|reflexivity]. intros _ N. apply I in N. discriminate.
Qed.

Lemma null_exactly_when_reported_witness :
  exists msgs,
    ["Invalid expression. Expected LHS."%string; "Expected ')'."%string] =
    [] ++ msgs /\ (@None ExprAST = None <-> msgs <> []).
Proof.
  apply (null_exactly_when_reported 7
           (parser_on sum_product_table "(a + b) * c") None
           (mkParser (mkScanner "c" (code " ") "b" (S754_zero false))
                     (code "*")
                     (<[ char_of_int (code ")") := 0 ]> sum_product_table)
                     ["Invalid expression. Expected LHS."%string;
                      "Expected ')'."%string])).
  left. vm_compute. reflexivity.
Defined.

(** ** What every step of the parser keeps *)

Section Steps.

Variable R : Parser -> Parser -> Prop.
Hypothesis R_refl : forall p, R p p.
Hypothesis R_trans : forall p1 p2 p3, R p1 p2 -> R p2 p3 -> R p1 p3.
Hypothesis R_GetNextToken : steps R GetNextToken.
Hypothesis R_ORDER_OF_OPS_at : forall tok, steps R (ORDER_OF_OPS_at tok).
Hypothesis R_RaiseError :
  forall msg p,
    R p (mkParser (scanner p) (CurrToken p) (ORDER_OF_OPS p)
                  (stderr p ++ [msg])).

Lemma steps_ret {A} (a : A) : steps R (ret a).
Proof. intros p a' p' [= _ <-]. apply R_refl. Qed.

Lemma steps_out_of_fuel {A} : steps R (@out_of_fuel A).
Proof. intros p a p' E. discriminate. Qed.

Lemma steps_RaiseError {A} msg : steps R (@RaiseError A msg).
Proof. intros p a p' [= _ <-]. apply R_RaiseError. Qed.

Lemma steps_bind {A B} (m : M A) (k : A -> M B) :
  steps R m -> (forall a, steps R (k a)) -> steps R (bind m k).
Proof.
  intros Hm Hk p b p' E. unfold bind in E.
  destruct (m p) as [[a p1]|] eqn:Em; [|discriminate].
  exact (R_trans _ _ _ (Hm _ _ _ Em) (Hk a _ _ _ E)).
Qed.

Ltac steps_step :=
  cbv beta iota;
  match goal with
  | H : steps R ?m |- steps R ?m => exact H
  | H : forall x, steps R _ |- steps R _ => apply H
  | H : forall x y, steps R _ |- steps R _ => apply H
  | |- steps R out_of_fuel => apply steps_out_of_fuel
  | |- steps R (ret _) => apply steps_ret
  | |- steps R (RaiseError _) => apply steps_RaiseError
  | |- steps R GetNextToken => apply R_GetNextToken
  | |- steps R (ORDER_OF_OPS_at _) => apply R_ORDER_OF_OPS_at
  | |- steps R (bind _ _) => apply steps_bind; [|intros ?]
  | |- steps R (if ?c then _ else _) => destruct c
  | |- steps R (match ?x with _ => _ end) => destruct x
  | |- steps R (fun p => _) => read_state
  end.

Lemma steps_ParseNumber : steps R ParseNumber.
Proof. unfold ParseNumber. repeat steps_step. Qed.

Lemma Parse_steps fuel :
  steps R (ParseExpr fuel) /\
  steps R (ParseLhs fuel) /\
  steps R (ParseParenExpr fuel) /\
  steps R (ParseIdentifier fuel) /\
  (forall args, steps R (ParseIdentifier_args fuel args)) /\
  (forall e l, steps R (ParseBinOpRhs fuel e l)).
Proof.
  induction fuel as [|f (IH1 & IH2 & IH3 & IH4 & IH5 & IH6)].
  - repeat apply conj; intros; apply steps_out_of_fuel.
  - pose proof steps_ParseNumber.
    repeat apply conj; intros.
    + cbn [ParseExpr]. repeat steps_step.
    + cbn [ParseLhs]. repeat steps_step.
    + cbn [ParseParenExpr]. repeat steps_step.
    + cbn [ParseIdentifier]. repeat steps_step.
    + cbn [ParseIdentifier_args]. repeat steps_step.
    + cbn [ParseBinOpRhs]. repeat steps_step.
Qed.

Lemma steps_ParseFuncProto_args fuel : forall args,
  steps R (ParseFuncProto_args fuel args).
Proof.
  induction fuel as [|f IH]; intros args; [apply steps_out_of_fuel|].
  cbn [ParseFuncProto_args]. repeat steps_step.
Qed.

Lemma steps_ParseFuncProto fuel : steps R (ParseFuncProto fuel).
Proof.
  pose proof (steps_ParseFuncProto_args fuel).
  unfold ParseFuncProto. repeat steps_step.
Qed.

Lemma steps_ParseFuncDef fuel : steps R (ParseFuncDef fuel).
Proof.
  pose proof (steps_ParseFuncProto fuel).
  pose proof (proj1 (Parse_steps fuel)).
  unfold ParseFuncDef. repeat steps_step.
Qed.

Lemma steps_ParseTopLevelExpr fuel : steps R (ParseTopLevelExpr fuel).
Proof.
  pose proof (proj1 (Parse_steps fuel)).
  unfold ParseTopLevelExpr. repeat steps_step.
Qed.



End Steps.

(** ** The table only gains zeros *)

Lemma table_grows_refl p : table_grows p p.
Proof. split; auto. Qed.

Lemma table_grows_trans p1 p2 p3 :
  table_grows p1 p2 -> table_grows p2 p3 -> table_grows p1 p3.
Proof.
  intros [A1 B1] [A2 B2]. split.
  - intros k v H. apply A2, A1, H.
  - intros k v H. destruct (B2 _ _ H) as [H2|H2]; auto.
Qed.

Lemma table_grows_GetNextToken : steps table_grows GetNextToken.
Proof.
  intros p t p' E. destruct (GetNextToken_CurrToken _ _ _ E) as (_ & O & _).
  unfold table_grows. rewrite O. split; auto.
Qed.

Lemma table_grows_ORDER_OF_OPS_at tok : steps table_grows (ORDER_OF_OPS_at tok).
Proof.
  intros p v p' E. unfold ORDER_OF_OPS_at in E.
  destruct (ORDER_OF_OPS p !! char_of_int tok) as [v0|] eqn:L;
    injection E as <- <-.
  - apply table_grows_refl.
  - split; intros k v; cbn [ORDER_OF_OPS]; rewrite lookup_insert; case_decide.
    + subst k. rewrite L. discriminate.
    + auto.
    + intros [= <-]. auto.
    + auto.
Qed.

Lemma table_grows_RaiseError msg p :
  table_grows p (mkParser (scanner p) (CurrToken p) (ORDER_OF_OPS p)
                          (stderr p ++ [msg])).
Proof. split; auto. Qed.

(** X10. Parsing writes to the precedence table, but only zeros.  After
    [ParseExpr], [ParseTopLevelExpr] or [ParseFuncDef] every entry the
    table had is still there with its value, and every other entry has the
    value 0: the entries [operator[]] made for the tokens looked up that
    were not in the table. *)
Theorem table_only_gains_zeros fuel p r p' :
  ParseExpr fuel p = Some (r, p') \/
  ParseTopLevelExpr fuel p = Some (r, p') \/
  ParseFuncDef fuel p = Some (r, p') ->
  (forall k v, ORDER_OF_OPS p !! k = Some v ->
               ORDER_OF_OPS p' !! k = Some v) /\
  (forall k v, ORDER_OF_OPS p' !! k = Some v ->
               ORDER_OF_OPS p !! k = Some v \/ v = 0).
Proof.
  intros [E|[E|E]];
    [ apply (proj1 (Parse_steps table_grows table_grows_refl table_grows_trans
                      table_grows_GetNextToken table_grows_ORDER_OF_OPS_at
                      table_grows_RaiseError fuel) _ _ _ E)
    | apply (steps_ParseTopLevelExpr table_grows table_grows_refl
               table_grows_trans table_grows_GetNextToken
               table_grows_ORDER_OF_OPS_at table_grows_RaiseError fuel _ _ _ E)
    | apply (steps_ParseFuncDef table_grows table_grows_refl
               table_grows_trans table_grows_GetNextToken
               table_grows_ORDER_OF_OPS_at table_grows_RaiseError fuel _ _ _ E) ].
Qed.

Lemma sum_product_run :
  ParseExpr 6
    (mkParser (mkScanner "+ b * c" (code " ") "a" (S754_zero false))
              tok_identifier sum_product_table []) =
  Some (None,
        mkParser (mkScanner "" EOF "c" (S754_zero false)) tok_eof
                 (<[ char_of_int tok_eof := 0 ]> sum_product_table)
                 ["Invalid expression. Expected LHS."%string]).
Proof. vm_compute. reflexivity. Qed.

Lemma table_only_gains_zeros_witness :
  (forall k v, sum_product_table !! k = Some v ->
               (<[ char_of_int tok_eof := 0 ]> sum_product_table) !! k
               = Some v) /\
  (forall k v, (<[ char_of_int tok_eof := 0 ]> sum_product_table) !! k
               = Some v ->
               sum_product_table !! k = Some v \/ v = 0).
Proof.
  exact (table_only_gains_zeros 6 _ _ _ (or_introl sum_product_run)).
Defined.

(** ** The main loop *)






Lemma gettok_ok sc t sc' :
  scanner_ok sc -> gettok sc = (t, sc') ->
  scanner_ok sc' /\ (t = tok_eof -> LastChar sc' = EOF).
Proof.
  intros Hok H.
  destruct (gettok_rec_total (String.length (stdin sc)) sc) as [r Hr]; [lia|].
  pose proof (gettok_rec_gettok _ _ _ Hr) as Hg. rewrite H in Hg. subst r.
  exact (gettok_rec_ok _ _ _ _ Hok Hr).
Qed.



Lemma stays_ok_GetNextToken : steps stays_ok GetNextToken.
Proof.
  intros p t p' E [Hsc _]. unfold GetNextToken in E.
  destruct (gettok (scanner p)) as [t0 sc] eqn:G. injection E as <- <-.
  destruct (gettok_ok _ _ _ Hsc G) as [Hsc' Heof].
  split; cbn [scanner CurrToken]; [exact Hsc'|].
  intros Ht. split; [now apply Heof | now apply Hsc', Heof].
Qed.




(** The first turn of the loop: no token is read yet, [CurrToken] is 0,
    which is no expression, so an error is printed and the first token
    read, whatever the input. *)
Lemma first_turn fuel table input :
  TopLevelParse_body (S (S fuel)) (parser_init table input) =
  Some (Some tt,
        mkParser (scanner (parser_on table input))
                 (CurrToken (parser_on table input)) table
                 ["Invalid expression. Expected LHS."%string]).
Proof.
  assert (H : ParseTopLevelExpr (S (S fuel)) (parser_init table input) =
              Some (None, mkParser (scanner_init input) 0 table
                            ["Invalid expression. Expected LHS."%string]))
    by reflexivity.
  unfold TopLevelParse_body, parser_on.
  change (CurrToken (parser_init table input)) with 0.
  change (0 =? EOF) with false. change (0 =? tok_func) with false.
  change (0 =? tok_import) with false. change (0 =? code ";") with false.
  cbv iota. unfold HandleTopLevelExpr, bind. rewrite H.
  unfold GetNextToken, parser_init. cbn [scanner ORDER_OF_OPS stderr].
  destruct (gettok (scanner_init input)) as [t sc]. reflexivity.
Qed.


Lemma TopLevelParse_S fuel p :
  TopLevelParse (S fuel) p =
  match TopLevelParse_body fuel p with
  | Some (Some _, p1) => TopLevelParse fuel p1
  | Some (None, p1) => Some (tt, p1)
  | None => None
  end.
Proof.
  cbn [TopLevelParse]. unfold bind.
  destruct (TopLevelParse_body fuel p) as [[[a|] p1]|]; reflexivity.
Qed.




(** X19. [main] does not return on an input whose first token is [func],
    [import] or [';'], whatever follows it. *)
Theorem main_stuck_on_first_token fuel input :
  CurrToken (parser_on ∅ input) = tok_func \/
  CurrToken (parser_on ∅ input) = tok_import \/
  CurrToken (parser_on ∅ input) = code ";" ->
  main fuel input = None.
Proof.
  intros H. unfold main.
  destruct fuel as [|[|[|f]]]; try reflexivity.
  rewrite TopLevelParse_S, first_turn.
  apply TopLevelParse_stuck. exact H.
Qed.

Lemma main_stuck_on_first_token_witness : main 1000 "  ;; x + 1" = None.
Proof.
  apply (main_stuck_on_first_token 1000 "  ;; x + 1").
  right. right. reflexivity.
Defined.

(** ** Function calls *)



(** * Termination *)

(** ** The scanner uses up its input *)

Lemma pending_code c : pending (code c) = 1%nat.
Proof.
  unfold pending. pose proof (code_nonneg c).
  destruct (code c =? EOF) eqn:E; [|reflexivity].
  apply Z.eqb_eq in E. unfold EOF in E. lia.
Qed.

Lemma pending_le last : (pending last <= 1)%nat.
Proof. unfold pending. destruct (last =? EOF); lia. Qed.

Lemma pending_not_eof t : t <> tok_eof -> pending t = 1%nat.
Proof.
  intros H. unfold pending. destruct (t =? EOF) eqn:E; [|reflexivity].
  apply Z.eqb_eq in E. contradiction.
Qed.

Lemma isspace_pending last : isspace last = true -> pending last = 1%nat.
Proof.
  unfold pending. destruct (last =? EOF) eqn:E; [|reflexivity].
  apply Z.eqb_eq in E. subst. discriminate.
Qed.

Lemma skip_space_unread input : forall last c inp,
  skip_space last input = (c, inp) ->
  (String.length inp + pending c <= String.length input + pending last)%nat /\
  (isspace last = true ->
   (String.length inp + pending c < String.length input + pending last)%nat) /\
  (isspace last = false -> c = last /\ inp = input).
Proof.
  induction input as [|a input IH]; intros last c inp; simpl.
  - destruct (isspace last) eqn:E; cbv [getchar]; intros H; injection H as <- <-;
      change (pending EOF) with 0%nat; cbn [String.length].
    + rewrite (isspace_pending _ E). (split; [lia|split; [intros; first [lia|congruence] | intros; first [congruence|split; reflexivity]]]).
    + (split; [lia|split; [intros; first [lia|congruence] | intros; first [congruence|split; reflexivity]]]).
  - destruct (isspace last) eqn:E.
    + intros H. destruct (IH _ _ _ H) as (H1 & _ & _).
      rewrite pending_code in H1. rewrite (isspace_pending _ E).
      cbn [String.length].
      (split; [lia|split; [intros; first [lia|congruence] | intros; first [congruence|split; reflexivity]]]).
    + intros [= <- <-]. cbn [String.length]. (split; [lia|split; [intros; first [lia|congruence] | intros; first [congruence|split; reflexivity]]]).
Qed.

Lemma read_identifier_unread input : forall s last rest,
  read_identifier input = (s, last, rest) ->
  (String.length rest + pending last <= String.length input)%nat.
Proof.
  induction input as [|a input IH]; intros s last rest; simpl.
  - intros [= _ <- <-]. reflexivity.
  - destruct (isalnum (code a)).
    + destruct (read_identifier input) as [[s0 l0] r0].
      intros [= _ <- <-]. specialize (IH _ _ _ eq_refl). lia.
    + intros [= _ <- <-]. rewrite pending_code. lia.
Qed.

Lemma read_number_unread input : forall l0 s last rest,
  read_number l0 input = (s, last, rest) ->
  (String.length rest + pending last <= String.length input)%nat.
Proof.
  induction input as [|a input IH]; intros l0 s last rest; simpl.
  - intros [= _ <- <-]. reflexivity.
  - destruct (isdigit (code a) || (code a =? code ".")).
    + destruct (read_number (code a) input) as [[s1 l1] r1] eqn:E.
      intros [= _ <- <-]. specialize (IH _ _ _ _ E). lia.
    + intros [= _ <- <-]. rewrite pending_code. lia.
Qed.

Lemma skip_comment_unread input : forall last rest,
  skip_comment input = (last, rest) ->
  (String.length rest + pending last <= String.length input)%nat.
Proof.
  induction input as [|a input IH]; intros last rest; simpl.
  - intros [= <- <-]. reflexivity.
  - destruct ((code a =? 10) || (code a =? 13)).
    + intros [= <- <-]. rewrite pending_code. lia.
    + intros H. specialize (IH _ _ H). lia.
Qed.

Lemma gettok_rest_unread sc t sc' :
  gettok_rest sc = (t, sc') ->
  (unread sc' <= unread sc)%nat /\
  (pending (LastChar sc) = 1%nat -> (unread sc' < unread sc)%nat).
Proof.
  unfold gettok_rest, unread.
  destruct (LastChar sc =? EOF) eqn:E.
  - intros [= _ <-]. unfold pending. rewrite E. split; [lia|discriminate].
  - assert (Hp : pending (LastChar sc) = 1%nat)
      by (unfold pending; rewrite E; reflexivity).
    rewrite Hp.
    destruct (stdin sc) as [|a rest]; cbv [getchar]; intros [= _ <-];
      cbn [stdin LastChar String.length]; rewrite ?pending_code;
      change (pending EOF) with 0%nat; split; lia.
Qed.

Lemma gettok_rec_unread depth : forall sc t sc',
  gettok_rec depth sc = Some (t, sc') ->
  (unread sc' <= unread sc)%nat /\
  (pending (LastChar sc) = 1%nat -> (unread sc' < unread sc)%nat).
Proof.
  induction depth as [|d IH]; intros sc t sc'; [discriminate|].
  cbn [gettok_rec].
  destruct (skip_space (LastChar sc) (stdin sc)) as [c input] eqn:Sp.
  destruct (skip_space_unread _ _ _ _ Sp) as (S1 & S2 & S3).
  assert (Hc : pending (LastChar sc) = 1%nat ->
               (String.length input + pending c
                < String.length (stdin sc) + pending (LastChar sc))%nat \/
               pending c = 1%nat).
  { intros Hp. destruct (isspace (LastChar sc)) eqn:E; [left; auto|].
    right. destruct (S3 eq_refl) as [-> _]. exact Hp. }
  unfold unread at 2 4.
  destruct (isalpha c) eqn:Ea.
  { destruct (read_identifier input) as [[s last] input'] eqn:R.
    pose proof (read_identifier_unread _ _ _ _ R) as Hr.
    assert (pending c = 1%nat).
    { unfold pending. destruct (c =? EOF) eqn:E; [|reflexivity].
      apply Z.eqb_eq in E. subst. discriminate. }
    repeat destruct (_ =? _)%string; intros [= _ <-]; unfold unread;
      cbn [stdin LastChar]; lia. }
  destruct (isdigit c || (c =? code ".")) eqn:Ed.
  { destruct (read_number c input) as [[s last] input'] eqn:R.
    pose proof (read_number_unread _ _ _ _ _ R) as Hr.
    assert (pending c = 1%nat).
    { unfold pending. destruct (c =? EOF) eqn:E; [|reflexivity].
      apply Z.eqb_eq in E. subst. discriminate. }
    intros [= _ <-]; unfold unread; cbn [stdin LastChar]; lia. }
  destruct (c =? code "#") eqn:Eh.
  - apply Z.eqb_eq in Eh.
    assert (pending c = 1%nat) by (subst c; reflexivity).
    destruct (skip_comment input) as [last input'] eqn:R.
    pose proof (skip_comment_unread _ _ _ R) as Hr.
    destruct (negb (last =? EOF)).
    + intros H1. apply IH in H1 as [H1 _].
      unfold unread in H1 at 2. cbn [stdin LastChar] in H1. lia.
    + intros [= H1]. apply gettok_rest_unread in H1 as [H1 _].
      unfold unread in H1 at 2. cbn [stdin LastChar] in H1. lia.
  - intros [= H1]. apply gettok_rest_unread in H1 as [H1 H2].
    unfold unread in H1 at 2, H2 at 2. cbn [stdin LastChar] in H1, H2.
    split; [lia|]. intros Hp. destruct (Hc Hp) as [H|H]; [lia|].
    specialize (H2 H). lia.
Qed.

Lemma gettok_unread sc t sc' :
  gettok sc = (t, sc') ->
  (unread sc' <= unread sc)%nat /\
  (pending (LastChar sc) = 1%nat -> (unread sc' < unread sc)%nat).
Proof.
  intros H.
  destruct (gettok_rec_total (String.length (stdin sc)) sc) as [r Hr]; [lia|].
  pose proof (gettok_rec_gettok _ _ _ Hr) as Hg. rewrite H in Hg. subst r.
  exact (gettok_rec_unread _ _ _ _ Hr).
Qed.

(** X21. [gettok] never gives input back, and unless the scanner is at the
    end of its input a call uses up at least one character: the unread
    input and the pending [LastChar] together get strictly less. *)
Theorem gettok_makes_progress sc :
  (unread (snd (gettok sc)) <= unread sc)%nat /\
  (LastChar sc <> EOF -> (unread (snd (gettok sc)) < unread sc)%nat).
Proof.
  destruct (gettok_rec_total (String.length (stdin sc)) sc) as [[t sc'] Hr];
    [lia|].
  rewrite (gettok_rec_gettok _ _ _ Hr). cbn [snd].
  destruct (gettok_rec_unread _ _ _ _ Hr) as [H1 H2].
  split; [exact H1|]. intros H. apply H2, pending_not_eof, H.
Qed.

(** ** What is left to parse *)

Lemma shrinks_refl p : shrinks p p.
Proof. intros H. split; [exact H|lia]. Qed.

Lemma shrinks_trans p1 p2 p3 : shrinks p1 p2 -> shrinks p2 p3 -> shrinks p1 p3.
Proof.
  intros H1 H2 Hok. destruct (H1 Hok) as [Hok2 L1].
  destruct (H2 Hok2) as [Hok3 L2]. split; [exact Hok3|lia].
Qed.

Lemma GetNextToken_to_parse p t p' :
  parser_ok p -> GetNextToken p = Some (t, p') ->
  (to_parse p' <= to_parse p)%nat /\
  (CurrToken p <> tok_eof -> (to_parse p' < to_parse p)%nat) /\
  (CurrToken p = tok_eof -> CurrToken p' = tok_eof).
Proof.
  intros [Hsc Heof] E. unfold GetNextToken in E.
  destruct (gettok (scanner p)) as [t0 sc] eqn:G. injection E as <- <-.
  unfold to_parse. cbn [scanner CurrToken].
  destruct (gettok_unread _ _ _ G) as [H1 H2].
  pose proof (pending_le t0) as Ht.
  destruct (Z.eq_dec (LastChar (scanner p)) EOF) as [El|Nl].
  - rewrite (gettok_at_eof _ El) in G. injection G as <- <-.
    change (pending tok_eof) with 0%nat.
    repeat apply conj; [lia| |reflexivity].
    intros Hc. rewrite (pending_not_eof _ Hc). lia.
  - assert (Hc : CurrToken p <> tok_eof) by (intros Hc; apply Nl, Heof, Hc).
    rewrite (pending_not_eof _ Hc). specialize (H2 (pending_not_eof _ Nl)).
    repeat apply conj; [lia|lia|contradiction].
Qed.

Lemma shrinks_GetNextToken : steps shrinks GetNextToken.
Proof.
  intros p t p' E Hok. split; [exact (stays_ok_GetNextToken _ _ _ E Hok)|].
  apply (GetNextToken_to_parse _ _ _ Hok E).
Qed.

Lemma shrinks_ORDER_OF_OPS_at tok : steps shrinks (ORDER_OF_OPS_at tok).
Proof.
  intros p v p' E. unfold ORDER_OF_OPS_at in E.
  destruct (ORDER_OF_OPS p !! char_of_int tok); injection E as <- <-;
    intros H; (split; [exact H|unfold to_parse; cbn [scanner CurrToken]; lia]).
Qed.

Lemma shrinks_RaiseError msg p :
  shrinks p (mkParser (scanner p) (CurrToken p) (ORDER_OF_OPS p)
                      (stderr p ++ [msg])).
Proof. intros H. split; [exact H|unfold to_parse; cbn [scanner CurrToken]; lia]. Qed.

Lemma Parse_shrinks fuel :
  steps shrinks (ParseExpr fuel) /\
  steps shrinks (ParseLhs fuel) /\
  steps shrinks (ParseParenExpr fuel) /\
  steps shrinks (ParseIdentifier fuel) /\
  (forall args, steps shrinks (ParseIdentifier_args fuel args)) /\
  (forall e l, steps shrinks (ParseBinOpRhs fuel e l)).
Proof.
  exact (Parse_steps shrinks shrinks_refl shrinks_trans shrinks_GetNextToken
           shrinks_ORDER_OF_OPS_at shrinks_RaiseError fuel).
Qed.

(** ** Every call returns *)

Lemma GetNextToken_returns p : exists t p', GetNextToken p = Some (t, p').
Proof.
  unfold GetNextToken. destruct (gettok (scanner p)) as [t sc]. eauto.
Qed.

Lemma ORDER_OF_OPS_at_returns tok p :
  exists v p', ORDER_OF_OPS_at tok p = Some (v, p').
Proof.
  unfold ORDER_OF_OPS_at. destruct (ORDER_OF_OPS p !! char_of_int tok); eauto.
Qed.

Lemma returns_le {A} (m m' : M A) p : below m m' -> returns m p -> returns m' p.
Proof. intros Hb [r Hr]. exists r. apply Hb, Hr. Qed.

Lemma ParseLhs_at_eof fuel p :
  (1 <= fuel)%nat -> CurrToken p = tok_eof ->
  ParseLhs fuel p = RaiseError "Invalid expression. Expected LHS." p.
Proof.
  intros Hf H. destruct fuel as [|f]; [lia|].
  cbn [ParseLhs]. rewrite H. reflexivity.
Qed.

Lemma ParseExpr_at_eof fuel p :
  (2 <= fuel)%nat -> CurrToken p = tok_eof ->
  ParseExpr fuel p = RaiseError "Invalid expression. Expected LHS." p.
Proof.
  intros Hf H. destruct fuel as [|f]; [lia|].
  cbn [ParseExpr]. unfold bind.
  rewrite (ParseLhs_at_eof f p ltac:(lia) H). reflexivity.
Qed.

Lemma ParseExpr_eq fuel :
  ParseExpr (S fuel) =
  (let* lhs := ParseLhs fuel in
   match lhs with
   | None => ret None
   | Some lhs => ParseBinOpRhs fuel 0 lhs
   end).
Proof. reflexivity. Qed.

Lemma ParseLhs_eq fuel p :
  ParseLhs (S fuel) p =
  if CurrToken p =? tok_identifier then ParseIdentifier fuel p
  else if CurrToken p =? tok_number then ParseNumber p
  else if CurrToken p =? code "(" then ParseParenExpr fuel p
  else RaiseError "Invalid expression. Expected LHS." p.
Proof. reflexivity. Qed.

Lemma ParseIdentifier_args_eq fuel args :
  ParseIdentifier_args (S fuel) args =
  (let* arg := ParseExpr fuel in
   match arg with
   | None => ret None
   | Some arg =>
       let args' := args ++ [arg] in
       let* t := GetNextToken in
       if t =? code "," then ParseIdentifier_args fuel args'
       else ret (Some args')
   end).
Proof. reflexivity. Qed.

Section Level.

Variables (g n : nat).

Hypothesis Hg : (2 <= g)%nat.

Hypothesis IH : forall p, parser_ok p -> (to_parse p < n)%nat ->
  returns (ParseExpr g) p /\
  returns (ParseLhs g) p /\
  (forall args, returns (ParseIdentifier_args g args) p) /\
  (forall e l, returns (ParseBinOpRhs g e l) p).

Lemma level_ParseBinOpRhs e l p :
  parser_ok p -> (to_parse p <= n)%nat ->
  returns (ParseBinOpRhs (S g) e l) p.
Proof.
  intros Hok Hn. unfold returns. cbn [ParseBinOpRhs]. unfold bind.
  destruct (ORDER_OF_OPS_at_returns (CurrToken p) p) as (v & p0 & G0).
  rewrite G0. destruct (shrinks_ORDER_OF_OPS_at _ _ _ _ G0 Hok) as [Hok0 L0].
  destruct (v <? e); [eexists; reflexivity|].
  destruct (GetNextToken_returns p0) as (t & p1 & G1). rewrite G1.
  destruct (GetNextToken_to_parse _ _ _ Hok0 G1) as (L1 & L1' & E1).
  pose proof (stays_ok_GetNextToken _ _ _ G1 Hok0) as Hok1.
  destruct (Z.eq_dec (CurrToken p0) tok_eof) as [Ee|Ne].
  { rewrite (ParseLhs_at_eof g p1 ltac:(lia) (E1 Ee)). eexists; reflexivity. }
  specialize (L1' Ne).
  destruct (IH p1 Hok1 ltac:(lia)) as (_ & [[r p2] E2] & _). rewrite E2.
  destruct (proj1 (proj2 (Parse_shrinks _)) _ _ _ E2 Hok1) as [Hok2 L2].
  destruct r as [rhs|]; [|eexists; reflexivity].
  destruct (ORDER_OF_OPS_at_returns (CurrToken p2) p2) as (v2 & p3 & G3).
  rewrite G3. destruct (shrinks_ORDER_OF_OPS_at _ _ _ _ G3 Hok2) as [Hok3 L3].
  destruct (v <? v2); cbv beta iota.
  - destruct (IH p3 Hok3 ltac:(lia)) as (_ & _ & _ & H).
    destruct (H (v + 1) rhs) as [[r' p4] E4]. rewrite E4.
    destruct (proj2 (proj2 (proj2 (proj2 (proj2 (Parse_shrinks _))))) _ _ _ _ _
                E4 Hok3) as [Hok4 L4].
    destruct r' as [rhs'|]; [|eexists; reflexivity].
    destruct (IH p4 Hok4 ltac:(lia)) as (_ & _ & _ & H4). apply H4.
  - unfold ret. destruct (IH p3 Hok3 ltac:(lia)) as (_ & _ & _ & H). apply H.
Qed.

Lemma level_ParseParenExpr p :
  parser_ok p -> (to_parse p <= n)%nat ->
  returns (ParseParenExpr (S g)) p.
Proof.
  intros Hok Hn. unfold returns. cbn [ParseParenExpr]. unfold bind.
  destruct (GetNextToken_returns p) as (t & p1 & G1). rewrite G1.
  destruct (GetNextToken_to_parse _ _ _ Hok G1) as (L1 & L1' & E1).
  pose proof (stays_ok_GetNextToken _ _ _ G1 Hok) as Hok1.
  assert (H : exists r, ParseExpr g p1 = Some r).
  { destruct (Z.eq_dec (CurrToken p) tok_eof) as [Ee|Ne].
    - rewrite (ParseExpr_at_eof g p1 Hg (E1 Ee)). eexists; reflexivity.
    - apply (IH p1 Hok1). specialize (L1' Ne). lia. }
  destruct H as [[r p2] E2]. rewrite E2.
  destruct (negb (CurrToken p2 =? code ")")); [eexists; reflexivity|].
  destruct (GetNextToken_returns p2) as (t3 & p3 & G3). rewrite G3.
  eexists; reflexivity.
Qed.

Lemma level_ParseIdentifier p :
  parser_ok p -> (to_parse p <= n)%nat ->
  returns (ParseIdentifier (S g)) p.
Proof.
  intros Hok Hn. unfold returns. cbn [ParseIdentifier]. unfold bind.
  destruct (GetNextToken_returns p) as (t & p1 & G1). rewrite G1.
  destruct (GetNextToken_to_parse _ _ _ Hok G1) as (L1 & L1' & E1).
  pose proof (stays_ok_GetNextToken _ _ _ G1 Hok) as Hok1.
  destruct (CurrToken p1 =? code "(") eqn:Ep; cbn [negb];
    [|eexists; reflexivity].
  assert (Ne : CurrToken p <> tok_eof).
  { intros Ee. rewrite (E1 Ee) in Ep. discriminate Ep. }
  specialize (L1' Ne).
  destruct (IH p1 Hok1 ltac:(lia)) as (_ & _ & H & _).
  destruct (H []) as [[r p2] E2]. rewrite E2.
  destruct r as [args|]; [|eexists; reflexivity].
  destruct (negb (CurrToken p2 =? code ")")); [eexists; reflexivity|].
  destruct (GetNextToken_returns p2) as (t3 & p3 & G3). rewrite G3.
  eexists; reflexivity.
Qed.

Lemma level_ParseLhs p :
  parser_ok p -> (to_parse p <= n)%nat ->
  returns (ParseLhs (S (S g))) p.
Proof.
  intros Hok Hn. unfold returns. rewrite ParseLhs_eq.
  destruct (CurrToken p =? tok_identifier);
    [apply (level_ParseIdentifier p Hok Hn)|].
  destruct (CurrToken p =? tok_number).
  { unfold ParseNumber, bind.
    destruct (GetNextToken_returns p) as (t & p1 & G1). rewrite G1.
    eexists; reflexivity. }
  destruct (CurrToken p =? code "(");
    [apply (level_ParseParenExpr p Hok Hn)|].
  eexists; reflexivity.
Qed.

Lemma level_ParseExpr p :
  parser_ok p -> (to_parse p <= n)%nat ->
  returns (ParseExpr (S (S (S g)))) p.
Proof.
  intros Hok Hn. unfold returns. rewrite ParseExpr_eq. unfold bind.
  destruct (level_ParseLhs p Hok Hn) as [[r p1] E1]. rewrite E1.
  destruct (proj1 (proj2 (Parse_shrinks _)) _ _ _ E1 Hok) as [Hok1 L1].
  destruct r as [lhs|]; [|eexists; reflexivity].
  apply (returns_le (ParseBinOpRhs (S g) 0 lhs)).
  - apply ParseBinOpRhs_fuel_le. lia.
  - apply level_ParseBinOpRhs; [exact Hok1|lia].
Qed.

Lemma level_ParseIdentifier_args args p :
  parser_ok p -> (to_parse p <= n)%nat ->
  returns (ParseIdentifier_args (S (S (S (S g)))) args) p.
Proof.
  intros Hok Hn. unfold returns. rewrite ParseIdentifier_args_eq. unfold bind.
  destruct (level_ParseExpr p Hok Hn) as [[r p1] E1]. rewrite E1.
  destruct (proj1 (Parse_shrinks _) _ _ _ E1 Hok) as [Hok1 L1].
  destruct r as [arg|]; [|eexists; reflexivity].
  destruct (GetNextToken_returns p1) as (t & p2 & G2). rewrite G2.
  destruct (GetNextToken_to_parse _ _ _ Hok1 G2) as (L2 & L2' & E2).
  pose proof (stays_ok_GetNextToken _ _ _ G2 Hok1) as Hok2.
  destruct (t =? code ",") eqn:Et; [|eexists; reflexivity].
  assert (Ne : CurrToken p1 <> tok_eof).
  { intros Ee. apply GetNextToken_CurrToken in G2 as [Hc _].
    rewrite (E2 Ee) in Hc. subst t. discriminate Et. }
  specialize (L2' Ne).
  destruct (IH p2 Hok2 ltac:(lia)) as (_ & _ & H & _).
  apply (returns_le (ParseIdentifier_args g (args ++ [arg]))).
  - apply (fuel_le g (S (S (S g))) ltac:(lia)).
  - apply H.
Qed.

End Level.

Lemma Parse_returns n : forall p,
  parser_ok p -> (to_parse p < n)%nat ->
  returns (ParseExpr (4 * n + 2)) p /\
  returns (ParseLhs (4 * n + 2)) p /\
  (forall args, returns (ParseIdentifier_args (4 * n + 2) args) p) /\
  (forall e l, returns (ParseBinOpRhs (4 * n + 2) e l) p).
Proof.
  induction n as [|n IH]; intros p Hok Hn; [lia|].
  replace (4 * S n + 2)%nat with (S (S (S (S (4 * n + 2))))) by lia.
  assert (Hg : (2 <= 4 * n + 2)%nat) by lia.
  assert (Hn' : (to_parse p <= n)%nat) by lia.
  repeat apply conj; intros.
  - apply (returns_le (ParseExpr (S (S (S (4 * n + 2)))))).
    + apply ParseExpr_fuel_le. lia.
    + apply (level_ParseExpr _ _ Hg IH p Hok Hn').
  - apply (returns_le (ParseLhs (S (S (4 * n + 2))))).
    + apply ParseLhs_fuel_le. lia.
    + apply (level_ParseLhs _ _ Hg IH p Hok Hn').
  - apply (level_ParseIdentifier_args _ _ Hg IH args p Hok Hn').
  - apply (returns_le (ParseBinOpRhs (S (4 * n + 2)) e l)).
    + apply ParseBinOpRhs_fuel_le. lia.
    + apply (level_ParseBinOpRhs _ _ Hg IH e l p Hok Hn').
Qed.

Lemma shrinks_ParseFuncProto fuel : steps shrinks (ParseFuncProto fuel).
Proof.
  exact (steps_ParseFuncProto shrinks shrinks_refl shrinks_trans
           shrinks_GetNextToken shrinks_RaiseError fuel).
Qed.

Lemma ParseFuncProto_args_returns args p :
  returns (ParseFuncProto_args 2 args) p.
Proof.
  unfold returns. cbn [ParseFuncProto_args]. unfold bind.
  destruct (negb (CurrToken p =? tok_identifier)); [eexists; reflexivity|].
  destruct (GetNextToken p) as [[t p1]|] eqn:G.
  2:{ destruct (GetNextToken_returns p) as (t & p1 & G1). congruence. }
  destruct (t =? code ",") eqn:Et; [|eexists; reflexivity].
  apply GetNextToken_CurrToken in G as [Hc _]. apply Z.eqb_eq in Et.
  rewrite Hc, Et. eexists; reflexivity.
Qed.

Lemma ParseFuncProto_returns p : returns (ParseFuncProto 2) p.
Proof.
  unfold returns, ParseFuncProto, bind.
  destruct (GetNextToken_returns p) as (t1 & p1 & G1). rewrite G1.
  destruct (negb (CurrToken p1 =? tok_identifier)); [eexists; reflexivity|].
  destruct (GetNextToken_returns p1) as (t2 & p2 & G2). rewrite G2.
  destruct (negb (CurrToken p2 =? code "(")); [eexists; reflexivity|].
  destruct (GetNextToken_returns p2) as (t3 & p3 & G3). rewrite G3.
  destruct (ParseFuncProto_args_returns [] p3) as [[r p4] E4]. rewrite E4.
  destruct r as [args|]; [|eexists; reflexivity].
  destruct (negb (CurrToken p4 =? code ")")); [eexists; reflexivity|].
  destruct (GetNextToken_returns p4) as (t5 & p5 & G5). rewrite G5.
  eexists; reflexivity.
Qed.

(** X22. The parsers return.  From a state in which the current token is
    the end of input only once the input is used up, [ParseExpr],
    [ParseFuncDef], [ParseTopLevelExpr] and [ParseFuncProto] each return, and
    return the same, whenever the recursion bound is at least four times
    what is left to parse, plus six: no input makes them recurse without
    end. *)
Theorem parsers_return p :
  parser_ok p ->
  exists e d t proto,
    forall fuel, (4 * to_parse p + 6 <= fuel)%nat ->
      ParseExpr fuel p = Some e /\
      ParseFuncDef fuel p = Some d /\
      ParseTopLevelExpr fuel p = Some t /\
      ParseFuncProto fuel p = Some proto.
Proof.
  intros Hok.
  set (b := (4 * to_parse p + 6)%nat).
  assert (Hb : forall q, parser_ok q -> (to_parse q <= to_parse p)%nat ->
                 returns (ParseExpr b) q).
  { intros q Hq Lq.
    apply (returns_le (ParseExpr (4 * S (to_parse q) + 2))).
    - apply ParseExpr_fuel_le. unfold b. lia.
    - apply (Parse_returns (S (to_parse q)) q Hq). lia. }
  destruct (Hb p Hok ltac:(lia)) as [e He].
  assert (Hd : returns (ParseFuncDef b) p).
  { unfold returns, ParseFuncDef, bind.
    destruct (GetNextToken_returns p) as (t1 & p1 & G1). rewrite G1.
    destruct (shrinks_GetNextToken _ _ _ G1 Hok) as [Hok1 L1].
    destruct (returns_le _ _ p1 (ParseFuncProto_fuel_le 2 b ltac:(unfold b; lia))
                (ParseFuncProto_returns p1)) as [[r p2] E2].
    rewrite E2.
    destruct (shrinks_ParseFuncProto _ _ _ _ E2 Hok1) as [Hok2 L2].
    destruct r as [proto|]; [|eexists; reflexivity].
    destruct (Hb p2 Hok2 ltac:(lia)) as [[r3 p3] E3]. rewrite E3.
    destruct r3; eexists; reflexivity. }
  destruct Hd as [d Hd].
  assert (Ht : returns (ParseTopLevelExpr b) p).
  { unfold returns, ParseTopLevelExpr, bind. rewrite He.
    destruct e as [[x|] p1]; eexists; reflexivity. }
  destruct Ht as [t Ht].
  destruct (ParseFuncProto_returns p) as [proto Hp].
  exists e, d, t, proto. intros fuel Hfuel. repeat apply conj.
  - exact (ParseExpr_fuel_le _ _ Hfuel _ _ He).
  - exact (ParseFuncDef_fuel_le _ _ Hfuel _ _ Hd).
  - exact (ParseTopLevelExpr_fuel_le _ _ Hfuel _ _ Ht).
  - apply (ParseFuncProto_fuel_le 2 fuel); [unfold b in Hfuel; lia|exact Hp].
Qed.

(** ** The loop of [TopLevelParse] *)









Lemma parsers_return_witness :
  exists e d t proto,
    forall fuel, (4 * to_parse (parser_on ∅ "f(x, 2") + 6 <= fuel)%nat ->
      ParseExpr fuel (parser_on ∅ "f(x, 2") = Some e /\
      ParseFuncDef fuel (parser_on ∅ "f(x, 2") = Some d /\
      ParseTopLevelExpr fuel (parser_on ∅ "f(x, 2") = Some t /\
      ParseFuncProto fuel (parser_on ∅ "f(x, 2") = Some proto.
Proof.
  apply (parsers_return (parser_on ∅ "f(x, 2")).
  split; intros H; vm_compute in H; discriminate H.
Defined.

